(** * AI-Swarm: supervisor and handoff orchestration graphs

    A shallow embedding of [supervisor_swarm.py] and [handoff_pattern.py]
    together with the graph engine they run on, and the properties the
    specification states about routing, state merging and bounded
    execution.

    Text is modelled as [string] over 8-bit characters; the Python string
    operations below are the ASCII fragment of [str]. *)

From Stdlib Require Import Ascii String QArith.
From stdpp Require Import base strings list gmap.

Local Open Scope string_scope.
Local Open Scope nat_scope.

(** ** Python [str] operations used by the routing code *)

Module PyStr.

(** [c.isspace()] on the ASCII range: TAB..CR, FS..US and the blank. *)
Definition isspace (c : ascii) : bool :=
  let n := nat_of_ascii c in
  ((9 <=? n) && (n <=? 13)) || ((28 <=? n) && (n <=? 32)).

Fixpoint lstrip (s : string) : string :=
  match s with
  | EmptyString => EmptyString
  | String c t => if isspace c then lstrip t else s
  end.

Fixpoint rstrip (s : string) : string :=
  match s with
  | EmptyString => EmptyString
  | String c t =>
      match rstrip t with
      | EmptyString => if isspace c then EmptyString else String c EmptyString
      | t' => String c t'
      end
  end.

(** [s.strip()] *)
Definition strip (s : string) : string := rstrip (lstrip s).

Definition lower_char (c : ascii) : ascii :=
  let n := nat_of_ascii c in
  if (65 <=? n) && (n <=? 90) then ascii_of_nat (n + 32) else c.

(** [s.lower()] *)
Fixpoint lower (s : string) : string :=
  match s with
  | EmptyString => EmptyString
  | String c t => String (lower_char c) (lower t)
  end.

Fixpoint startswith (p s : string) : bool :=
  match p, s with
  | EmptyString, _ => true
  | String a p', String b s' => if Ascii.eqb a b then startswith p' s' else false
  | String _ _, EmptyString => false
  end.

(** [needle in hay] *)
Fixpoint contains (needle hay : string) : bool :=
  startswith needle hay ||
  match hay with
  | EmptyString => false
  | String _ t => contains needle t
  end.

End PyStr.

(** ** Messages, state and updates *)

Inductive Role := System | Human | AI.

Record Message := { role : Role; content : string }.

Definition SystemMessage (text : string) : Message := {| role := System; content := text |}.
Definition HumanMessage (text : string) : Message := {| role := Human; content := text |}.
Definition AIMessage (text : string) : Message := {| role := AI; content := text |}.

(** Scalar values a control field of the state dictionary may hold. *)
Inductive Value :=
  | VNone
  | VBool (b : bool)
  | VInt (z : Z)
  | VStr (s : string).

(** Python truth value, as tested by [if v:]. *)
Definition truthy (v : Value) : bool :=
  match v with
  | VNone => false
  | VBool b => b
  | VInt z => negb (z =? 0)%Z
  | VStr s => negb (String.eqb s EmptyString)
  end.

(** Python [==] on these values ([True == 1], and a [str] only equals a [str]). *)
Definition py_eq (a b : Value) : bool :=
  match a, b with
  | VNone, VNone => true
  | VBool x, VBool y => Bool.eqb x y
  | VInt x, VInt y => (x =? y)%Z
  | VBool x, VInt y | VInt y, VBool x => ((if x then 1 else 0) =? y)%Z
  | VStr x, VStr y => String.eqb x y
  | _, _ => false
  end.

(** [v in l] *)
Definition py_in (v : Value) (l : list Value) : bool := existsb (py_eq v) l.

Definition NodeId := string.

Definition START : NodeId := "__start__".
Definition END : NodeId := "__end__".

(** A routing function hands a Python value back to the engine; the engine
    reads it as a node identifier.  Only strings name nodes. *)
Definition node_id (v : Value) : NodeId :=
  match v with
  | VStr s => s
  | _ => EmptyString
  end.

(** The state dictionary: the message sequence under the key ["messages"]
    and the scalar control fields under their own keys. *)
Record State := {
  messages : list Message;
  fields : gmap string Value
}.

(** What a node returns: the messages to add and the control fields to set. *)
Record Update := {
  u_messages : list Message;
  u_fields : gmap string Value
}.

(** The keys of the state dictionary, as iterating over it yields them
    (the order among control fields is the map's, not insertion order). *)
Definition keys (state : State) : list string :=
  "messages" :: map fst (map_to_list (fields state)).

(** [state.get(key, default)] on a control field *)
Definition state_get (state : State) (key : string) (dflt : Value) : Value :=
  match fields state !! key with
  | Some v => v
  | None => dflt
  end.

(** ** The graph engine

    [StateGraph], its builder calls, [compile] and [invoke] belong to the
    orchestration layer the two programs are written against; its code is
    not part of the sources, so this module follows the specification's
    sections 4.1, 4.2 and 4.4. *)

(** A transient failure of the language-model collaborator. *)
Inductive Failure := RateLimit | Timeout.

Inductive Error :=
  | ConfigurationError
  | RoutingError (target : NodeId)
  | ExecutionLimitExceeded
  | CollaboratorFailure (f : Failure).

(** Modelled from the spec: the per-field merge reducer of section 4.4.
    Message fields are concatenated, the update's messages after the
    existing ones; a control field of the update overwrites the existing
    value and an absent one leaves it untouched. *)
Definition merge (state : State) (update : Update) : State :=
  {| messages := messages state ++ u_messages update;
     fields := u_fields update ∪ fields state |}.

Fixpoint assoc {A : Type} (id : NodeId) (l : list (NodeId * A)) : option A :=
  match l with
  | [] => None
  | (k, v) :: t => if String.eqb k id then Some v else assoc id t
  end.

Section Engine.

(** The outside world a node or a router may consult (the language-model
    service): code that calls it takes the world and hands it back. *)
Variable World : Type.

Definition Collab (A : Type) : Type := World → World * (Failure + A).

Definition ret {A : Type} (a : A) : Collab A := λ w, (w, inr a).

Definition bind {A B : Type} (m : Collab A) (k : A → Collab B) : Collab B :=
  λ w, match m w with
       | (w', inl f) => (w', inl f)
       | (w', inr a) => k a w'
       end.

(** Processing contract of a node, and a router. *)
Definition Node : Type := State → Collab Update.
Definition Router : Type := State → Collab NodeId.

(** The builder: what [add_node], [add_edge] and [add_conditional_edges]
    have registered so far, in call order. *)
Record StateGraph := {
  nodes : list (NodeId * Node);
  edges : list (NodeId * NodeId);
  branches : list (NodeId * Router)
}.

Definition new_graph : StateGraph := {| nodes := []; edges := []; branches := [] |}.

Definition add_node (id : NodeId) (process : Node) (b : StateGraph) : StateGraph :=
  {| nodes := nodes b ++ [(id, process)]; edges := edges b; branches := branches b |}.

Definition add_edge (source target : NodeId) (b : StateGraph) : StateGraph :=
  {| nodes := nodes b; edges := edges b ++ [(source, target)]; branches := branches b |}.

Definition add_conditional_edges (source : NodeId) (router : Router) (b : StateGraph) : StateGraph :=
  {| nodes := nodes b; edges := edges b; branches := branches b ++ [(source, router)] |}.

(** A compiled graph: the validated tables and the start node. *)
Record Graph := {
  registry : list (NodeId * Node);
  static : list (NodeId * NodeId);
  conditional : list (NodeId * Router);
  start : NodeId
}.

Definition registered (ids : list NodeId) (id : NodeId) : bool :=
  existsb (String.eqb id) ids.

Fixpoint distinct (ids : list NodeId) : bool :=
  match ids with
  | [] => true
  | id :: t => negb (registered t id) && distinct t
  end.

(** Modelled from the spec: [compile] of section 4.1.  The programs name
    the start node by a static edge out of [START].  Compilation fails
    when there is no start node or it has no outgoing edge (a), a static
    edge targets neither a registered node nor [END] (b), an id is
    registered twice (c), or a source has both a static edge and a
    router (d). *)
Definition compile (b : StateGraph) : Error + Graph :=
  let ids := map fst (nodes b) in
  match assoc START (edges b) with
  | None => inl ConfigurationError
  | Some startId =>
      let has_out id := registered (map fst (edges b)) id || registered (map fst (branches b)) id in
      if negb (has_out startId) then inl ConfigurationError
      else if negb (forallb (λ e, registered ids (snd e) || String.eqb (snd e) END) (edges b))
      then inl ConfigurationError
      else if negb (distinct ids) then inl ConfigurationError
      else if existsb (λ r, registered (map fst (edges b)) (fst r)) (branches b)
      then inl ConfigurationError
      else inr {| registry := nodes b; static := edges b;
                  conditional := branches b; start := startId |}
  end.

(** What one run leaves behind: the nodes whose processing was started,
    the state at the head of each loop iteration, the final value of the
    step counter, and how the run ended. *)
Record Run := {
  executed : list NodeId;
  history : list State;
  steps : nat;
  outcome : Error + State
}.

Definition halt (state : State) (n : nat) (o : Error + State) : Run :=
  {| executed := []; history := [state]; steps := n; outcome := o |}.

Definition abort (current : NodeId) (state : State) (n : nat) (e : Error) : Run :=
  {| executed := [current]; history := [state]; steps := n; outcome := inl e |}.

Definition ran (current : NodeId) (state : State) (r : Run) : Run :=
  {| executed := current :: executed r; history := state :: history r;
     steps := steps r; outcome := outcome r |}.

(** Next target of [current]: its static edge if it has one, else its
    router applied to the merged state.  A node with neither is a
    structurally invalid graph. *)
Definition resolve (g : Graph) (current : NodeId) (state : State)
  : World → World * (Error + NodeId) :=
  λ w, match assoc current (static g) with
       | Some target => (w, inr target)
       | None =>
           match assoc current (conditional g) with
           | None => (w, inl ConfigurationError)
           | Some router =>
               match router state w with
               | (w', inl f) => (w', inl (CollaboratorFailure f))
               | (w', inr next) => (w', inr next)
               end
           end
       end.

Definition valid (g : Graph) (next : NodeId) : bool :=
  registered (map fst (registry g)) next || String.eqb next END.

(** Modelled from the spec: the loop of section 4.2, one iteration per
    unit of [fuel]; [None] only when the fuel runs out first. *)
Fixpoint loop (g : Graph) (maxSteps fuel : nat)
    (current : NodeId) (state : State) (n : nat) (w : World) : option (World * Run) :=
  match fuel with
  | O => None
  | S fuel' =>
      if String.eqb current END then Some (w, halt state n (inr state))
      else if Nat.eqb n maxSteps then Some (w, halt state n (inl ExecutionLimitExceeded))
      else
        match assoc current (registry g) with
        | None => Some (w, halt state n (inl ConfigurationError))
        | Some process =>
            match process state w with
            | (w1, inl f) => Some (w1, abort current state n (CollaboratorFailure f))
            | (w1, inr update) =>
                let state' := merge state update in
                match resolve g current state' w1 with
                | (w2, inl e) => Some (w2, abort current state n e)
                | (w2, inr next) =>
                    if valid g next then
                      match loop g maxSteps fuel' next state' (S n) w2 with
                      | None => None
                      | Some (w3, r) => Some (w3, ran current state r)
                      end
                    else Some (w2, abort current state n (RoutingError next))
                end
            end
        end
  end.

(** Modelled from the spec: [invoke(graph, initialState, maxSteps)].
    [maxSteps + 1] iterations are all the loop can ever take. *)
Definition invoke (g : Graph) (initialState : State) (maxSteps : nat) (w : World)
  : option (World * Run) :=
  loop g maxSteps (S maxSteps) (start g) initialState 0 w.

End Engine.

Arguments ret {World A} a.
Arguments bind {World A B} m k.
Arguments new_graph {World}.
Arguments add_node {World} id process b.
Arguments add_edge {World} source target b.
Arguments add_conditional_edges {World} source router b.
Arguments compile {World} b.
Arguments registry {World} g.
Arguments static {World} g.
Arguments conditional {World} g.
Arguments start {World} g.
Arguments nodes {World} s.
Arguments edges {World} s.
Arguments branches {World} s.
Arguments resolve {World} g current state w.
Arguments valid {World} g next.
Arguments loop {World} g maxSteps fuel current state n w.
Arguments invoke {World} g initialState maxSteps w.

Notation "'let!' x ':=' m 'in' k" := (bind m (λ x, k))
  (at level 10, x name, m at level 100, k at level 200).

(** ** supervisor_swarm.py *)

Module Supervisor.

Record ChatOpenAI := { model : string; temperature : Q }.

(** An agent object: its model handle and its fixed system prompt. *)
Record Agent := { llm : ChatOpenAI; system_prompt : string }.

Definition ResearchAgent : Agent :=
  {| llm := {| model := "gpt-4o-mini"; temperature := 0 |};
     system_prompt := "You are a research specialist. 
        Your job is to gather and synthesize information on topics.
        Be thorough and cite sources when possible." |}.

Definition WriterAgent : Agent :=
  {| llm := {| model := "gpt-4o-mini"; temperature := 7 # 10 |};
     system_prompt := "You are a professional writer.
        Take research and create clear, engaging content.
        Focus on clarity and readability." |}.

Definition ReviewerAgent : Agent :=
  {| llm := {| model := "gpt-4o-mini"; temperature := 0 |};
     system_prompt := "You are a critical reviewer.
        Review content for accuracy, clarity, and completeness.
        Provide constructive feedback." |}.

Definition SupervisorAgent : Agent :=
  {| llm := {| model := "gpt-4o-mini"; temperature := 0 |};
     system_prompt := "You are a supervisor managing a team of specialists:
        - researcher: Gathers information and does research
        - writer: Creates written content
        - reviewer: Reviews and provides feedback
        
        Based on the current state of work, decide which specialist should work next.
        When the task is complete, respond with 'FINISH'.
        
        Respond with ONLY the name of the next agent (researcher/writer/reviewer) or FINISH." |}.

(** The label [SupervisorAgent.route] reads off the classifier's reply:
    the text is stripped and lowered, then searched for each label in
    turn. *)
Definition classify (response_content : string) : string :=
  let next_agent := PyStr.lower (PyStr.strip response_content) in
  if PyStr.contains "finish" next_agent then "finish"
  else if PyStr.contains "researcher" next_agent then "researcher"
  else if PyStr.contains "writer" next_agent then "writer"
  else if PyStr.contains "reviewer" next_agent then "reviewer"
  else "finish".

Section Swarm.

Variable World : Type.

(** [llm.invoke(inputs)]: the external model call.  An input is a
    message or a bare string. *)
Variable llm_invoke : ChatOpenAI → list (Message + string) → Collab World Message.

(** [ResearchAgent.process], [WriterAgent.process] and
    [ReviewerAgent.process] share one body.  The graph calls a node
    with the state dictionary, so the parameter the source names
    [messages] is bound to the state and [*messages] unpacks its keys. *)
Definition process (self : Agent) (messages : State) : Collab World Update :=
  let! response :=
    llm_invoke (llm self)
      (inl (SystemMessage (system_prompt self)) :: map inr (keys messages)) in
  ret {| u_messages := [response]; u_fields := ∅ |}.

(** [SupervisorAgent.route] *)
Definition route (self : Agent) (messages : list Message) : Collab World string :=
  let! response :=
    llm_invoke (llm self)
      (inl (SystemMessage (system_prompt self)) :: map inl messages) in
  ret (classify (content response)).

Definition supervisor : Agent := SupervisorAgent.
Definition researcher : Agent := ResearchAgent.
Definition writer : Agent := WriterAgent.
Definition reviewer : Agent := ReviewerAgent.

(** The node registered under ["supervisor"]: hands the message list
    back as its update. *)
Definition supervisor_node : Node World :=
  λ state, ret {| u_messages := messages state; u_fields := ∅ |}.

Definition supervisor_router : Router World :=
  λ state,
    let! next_agent := route supervisor (messages state) in
    if String.eqb next_agent "finish" then ret END else ret next_agent.

Definition builder : StateGraph World :=
  let builder := new_graph in
  let builder := add_node "researcher" (process researcher) builder in
  let builder := add_node "writer" (process writer) builder in
  let builder := add_node "reviewer" (process reviewer) builder in
  let builder := add_node "supervisor" supervisor_node builder in
  let builder := add_edge START "supervisor" builder in
  let builder := add_conditional_edges "supervisor" supervisor_router builder in
  let builder := add_edge "researcher" "supervisor" builder in
  let builder := add_edge "writer" "supervisor" builder in
  let builder := add_edge "reviewer" "supervisor" builder in
  builder.

Definition create_supervisor_swarm : Error + Graph World := compile builder.

(** The graph [create_supervisor_swarm] compiles to. *)
Definition graph : Graph World :=
  {| registry := [("researcher", process researcher); ("writer", process writer);
                  ("reviewer", process reviewer); ("supervisor", supervisor_node)];
     static := [(START, "supervisor"); ("researcher", "supervisor");
                ("writer", "supervisor"); ("reviewer", "supervisor")];
     conditional := [("supervisor", supervisor_router)];
     start := "supervisor" |}.

End Swarm.

Arguments process {World} llm_invoke self messages.
Arguments route {World} llm_invoke self messages.
Arguments supervisor_node {World}.
Arguments supervisor_router {World} llm_invoke.
Arguments builder {World} llm_invoke.
Arguments create_supervisor_swarm {World} llm_invoke.
Arguments graph {World} llm_invoke.

End Supervisor.

(** ** handoff_pattern.py *)

Module Handoff.

(** [route_next]: the router shared by the four nodes. *)
Definition route_next (state : State) : NodeId :=
  if truthy (state_get state "task_complete" (VBool false)) then END
  else
    let next_agent := state_get state "next_agent" (VStr "finish") in
    if py_in next_agent [VStr "technical"; VStr "creative"; VStr "data"]
    then node_id next_agent
    else END.

Section Swarm.

Variable World : Type.

(** The [process] methods of the triage, technical, creative and data
    agents; their classes are defined outside the given sources. *)
Variables triage technical creative data : Node World.

Definition router : Router World := λ state, ret (route_next state).

Definition builder : StateGraph World :=
  let builder := new_graph in
  let builder := add_node "triage" triage builder in
  let builder := add_node "technical" technical builder in
  let builder := add_node "creative" creative builder in
  let builder := add_node "data" data builder in
  let builder := add_edge START "triage" builder in
  let builder := add_conditional_edges "triage" router builder in
  let builder := add_conditional_edges "technical" router builder in
  let builder := add_conditional_edges "creative" router builder in
  let builder := add_conditional_edges "data" router builder in
  builder.

Definition create_handoff_swarm : Error + Graph World := compile builder.

(** The graph [create_handoff_swarm] compiles to. *)
Definition graph : Graph World :=
  {| registry := [("triage", triage); ("technical", technical);
                  ("creative", creative); ("data", data)];
     static := [(START, "triage")];
     conditional := [("triage", router); ("technical", router);
                     ("creative", router); ("data", router)];
     start := "triage" |}.

End Swarm.

Arguments router {World}.
Arguments builder {World} triage technical creative data.
Arguments create_handoff_swarm {World} triage technical creative data.
Arguments graph {World} triage technical creative data.

End Handoff.

(** ** A scripted collaborator

    A world whose model service answers from a fixed list of replies and
    times out once the list is used up; it drives the concrete runs below. *)

Module Scripted.

Definition World : Type := list string.

Definition llm_invoke
  : Supervisor.ChatOpenAI → list (Message + string) → Collab World Message :=
  λ _ _ w,
    match w with
    | [] => (w, inl Timeout)
    | reply :: rest => (rest, inr (AIMessage reply))
    end.

(** The input [main] passes to [graph.invoke]. *)
Definition task : string :=
  "Create a brief article (3-4 sentences) about the benefits of meditation.
    Make sure it's well-researched, well-written, and reviewed for quality.".

Definition initial : State :=
  {| messages := [HumanMessage task]; fields := ∅ |}.

(** A handoff agent driven by the same service: it appends the reply and
    names it as the next agent. *)
Definition delegate : Node World :=
  λ _ w,
    match w with
    | [] => (w, inl Timeout)
    | reply :: rest =>
        (rest, inr {| u_messages := [AIMessage reply];
                      u_fields := {[ "next_agent" := VStr reply ]} |})
    end.

(** A handoff agent that answers on its own and marks the task complete. *)
Definition closer (text : string) : Node World :=
  λ _, ret {| u_messages := [AIMessage text];
              u_fields := {[ "task_complete" := VBool true ]} |}.

Definition handoff : Graph World :=
  Handoff.graph delegate (closer "technical answer")
    (closer "creative answer") (closer "data answer").

(** A handoff graph none of whose agents consults the service. *)
Definition scripted_handoff : Graph World :=
  Handoff.graph (closer "triaged") (closer "technical answer")
    (closer "creative answer") (closer "data answer").

(** A model service that never fails and always names the researcher. *)
Definition stubborn
  : Supervisor.ChatOpenAI → list (Message + string) → Collab World Message :=
  λ _ _, ret (AIMessage "researcher").

(** One node whose router always sends control back to it. *)
Definition spinner : Graph World :=
  {| registry := [("spin", closer "again")];
     static := [(START, "spin")];
     conditional := [("spin", λ _, ret "spin")];
     start := "spin" |}.

End Scripted.

(** ** Vocabulary for the statements about runs *)

(** How a run can end. *)
Definition finished (r : Run) : Prop := ∃ s, outcome r = inr s.
Definition raised (e : Error) (r : Run) : Prop := outcome r = inl e.

Definition is_routing_error (o : Error + State) : bool :=
  match o with
  | inl (RoutingError _) => true
  | _ => false
  end.

(** The message sequence only grows along the recorded states: each one
    is a prefix of the next. *)
Definition append_only (h : list State) : Prop :=
  ∀ k s s', h !! k = Some s → h !! S k = Some s' →
    messages s `prefix_of` messages s' ∧ length (messages s) ≤ length (messages s').

(** A router, or a node, that is a function of the state alone: it neither
    reads nor changes the world. *)
Definition pure_router {World : Type} (router : Router World) : Prop :=
  ∃ f : State → NodeId, ∀ state w, router state w = (w, inr (f state)).

Definition pure_node {World : Type} (process : Node World) : Prop :=
  ∃ f : State → Failure + Update, ∀ state w, process state w = (w, f state).

Definition pure_routers {World : Type} (g : Graph World) : Prop :=
  Forall (λ e, pure_router (snd e)) (conditional g).

Definition pure_nodes {World : Type} (g : Graph World) : Prop :=
  Forall (λ e, pure_node (snd e)) (registry g).

(** The node [n] has a conditional edge whose router always answers [n]
    itself, and its processing never fails. *)
Definition self_routing {World : Type} (g : Graph World) (n : NodeId) : Prop :=
  n ≠ END ∧ assoc n (static g) = None ∧
  ∃ process router,
    assoc n (registry g) = Some process ∧
    assoc n (conditional g) = Some router ∧
    (∀ state w, ∃ w' update, process state w = (w', inr update)) ∧
    (∀ state w, ∃ w', router state w = (w', inr n)).

(** What stands behind the way a run ended.  A returned state is the last
    one recorded, after as many steps as nodes were executed; the step
    limit is raised after exactly [maxSteps] executions; a routing error
    names a target that is neither registered nor [END]; a configuration
    error points at a node that is not registered or has no outgoing edge;
    a collaborator failure is the failure some node or router returned. *)
Definition explained {World : Type} (g : Graph World) (maxSteps : nat) (r : Run) : Prop :=
  match outcome r with
  | inr final => last (history r) = Some final ∧ steps r = length (executed r)
  | inl ExecutionLimitExceeded => steps r = maxSteps ∧ length (executed r) = maxSteps
  | inl (RoutingError target) => valid g target = false
  | inl ConfigurationError =>
      ∃ id, id ≠ END ∧
        (assoc id (registry g) = None ∨
         (assoc id (static g) = None ∧ assoc id (conditional g) = None))
  | inl (CollaboratorFailure f) =>
      ∃ id state (w0 w1 : World),
        (∃ process, assoc id (registry g) = Some process ∧ process state w0 = (w1, inl f)) ∨
        (∃ router, assoc id (conditional g) = Some router ∧ router state w0 = (w1, inl f))
  end.

(** A set of nodes that control never leaves: each is registered, its
    processing never fails, and its next target is again in the set. *)
Definition trapped {World : Type} (g : Graph World) (P : NodeId → Prop) : Prop :=
  ∀ current, P current →
    current ≠ END ∧
    ∃ process, assoc current (registry g) = Some process ∧
      (∀ state w, ∃ w' update, process state w = (w', inr update)) ∧
      (∀ state w, ∃ w' next, resolve g current state w = (w', inr next) ∧ P next).

(** The coordinator never classifies finish: its model call always answers,
    and [route] reads a specialist's name off the reply. *)
Definition coordinator_never_finishes {World : Type}
    (llm_invoke : Supervisor.ChatOpenAI → list (Message + string) → Collab World Message)
  : Prop :=
  ∀ msgs w, ∃ w' label,
    Supervisor.route llm_invoke Supervisor.supervisor msgs w = (w', inr label) ∧
    label ≠ "finish".

(** No specialist's processing fails. *)
Definition specialists_answer {World : Type}
    (llm_invoke : Supervisor.ChatOpenAI → list (Message + string) → Collab World Message)
  : Prop :=
  ∀ self state w,
    self ∈ [Supervisor.researcher; Supervisor.writer; Supervisor.reviewer] →
    ∃ w' update, Supervisor.process llm_invoke self state w = (w', inr update).

(** The coordinator's hand-back of the whole message list, merged. *)
Definition pass_through (state : State) : State :=
  merge state {| u_messages := messages state; u_fields := ∅ |}.

(** Scenario B on the supervisor graph, from world [w0] to world [w3]: the
    coordinator classifies ["researcher"], the researcher adds one message,
    and the coordinator then classifies FINISH. *)
Definition scenario_B {World : Type}
    (llm_invoke : Supervisor.ChatOpenAI → list (Message + string) → Collab World Message)
    (initial : State) (w0 w3 : World) : Prop :=
  ∃ w1 w2 update,
    let s1 := pass_through initial in
    Supervisor.supervisor_router llm_invoke s1 w0 = (w1, inr "researcher") ∧
    Supervisor.process llm_invoke Supervisor.researcher s1 w1 = (w2, inr update) ∧
    length (u_messages update) = 1 ∧
    Supervisor.supervisor_router llm_invoke (pass_through (merge s1 update)) w2 = (w3, inr END).

Definition is_specialist (id : NodeId) : Prop :=
  id = "researcher" ∨ id = "writer" ∨ id = "reviewer".

(** The specialists among the executed nodes. *)
Definition specialists (ids : list NodeId) : list NodeId :=
  filter (λ id, id ≠ "supervisor") ids.

(** ** The entry point of supervisor_swarm.py *)

Module Program.

(** [msg.__class__.__name__] *)
Definition class_name (msg : Message) : string :=
  match role msg with
  | System => "SystemMessage"
  | Human => "HumanMessage"
  | AI => "AIMessage"
  end.

(** The line feed, and [s * n] on strings. *)
Definition nl : string := String (ascii_of_nat 10) EmptyString.

Fixpoint str_mul (s : string) (n : nat) : string :=
  match n with
  | O => EmptyString
  | S n' => String.append s (str_mul s n')
  end.

(** What can stop [main]: a model client that cannot be constructed, an
    error of the graph layer, or the [IndexError] of
    [result["messages"][-1]] on an empty list. *)
Inductive Exception :=
  | ClientError
  | Engine (e : Error)
  | IndexError.

Section Main.

Variable World : Type.
Variable llm_invoke : Supervisor.ChatOpenAI → list (Message + string) → Collab World Message.

(** [ChatOpenAI(model=..., temperature=...)]: constructing a client
    consults the environment and may fail; [true] when it is built. *)
Variable new_client : Supervisor.ChatOpenAI → World → World * bool.

(** The four agent objects [create_supervisor_swarm] builds first, each
    constructing its client in [__init__]; the first failure stops it. *)
Fixpoint construct (configs : list Supervisor.ChatOpenAI) (w : World) : World * bool :=
  match configs with
  | [] => (w, true)
  | config :: rest =>
      match new_client config w with
      | (w', true) => construct rest w'
      | (w', false) => (w', false)
      end
  end.

Definition agents : list Supervisor.Agent :=
  [Supervisor.supervisor; Supervisor.researcher; Supervisor.writer; Supervisor.reviewer].

(** The two prints that precede the run. *)
Definition preamble (task : string) : list string :=
  [String.append "Task: " (String.append task nl); str_mul "=" 60].

(** The prints of the conversation loop: a header and the content per
    message. *)
Definition conversation (msgs : list Message) : list string :=
  flat_map (λ msg, [String.append nl (String.append (class_name msg) ":"); content msg]) msgs.

(** [main]: the strings handed to [print], in order, and the exception
    that ended it, if any.  [main] leaves the step bound to the graph
    layer; it is the parameter [recursion_limit] here. *)
Definition main (recursion_limit : nat) (w : World)
  : option (World * (list string * option Exception)) :=
  match construct (map Supervisor.llm agents) w with
  | (w0, false) => Some (w0, ([], Some ClientError))
  | (w0, true) =>
      match Supervisor.create_supervisor_swarm llm_invoke with
      | inl e => Some (w0, ([], Some (Engine e)))
      | inr graph =>
          let task := Scripted.task in
          let printed := preamble task in
          match invoke graph {| messages := [HumanMessage task]; fields := ∅ |}
                  recursion_limit w0 with
          | None => None
          | Some (w', run) =>
              match outcome run with
              | inl e => Some (w', (printed, Some (Engine e)))
              | inr result =>
                  let printed :=
                    (printed ++ [String.append nl "=== Conversation Flow ==="]
                     ++ conversation (messages result)
                     ++ [String.append nl (str_mul "=" 60);
                         String.append nl "=== Final Output ==="])%list in
                  match last (messages result) with
                  | None => Some (w', (printed, Some IndexError))
                  | Some msg => Some (w', ((printed ++ [content msg])%list, None))
                  end
              end
          end
      end
  end.

End Main.

Arguments main {World} llm_invoke new_client recursion_limit w.

End Program.

(** ** Vocabulary for the further properties *)

Fixpoint all_space (s : string) : bool :=
  match s with
  | EmptyString => true
  | String c t => PyStr.isspace c && all_space t
  end.

(** The executed nodes take turns: the coordinator when [coordinator] is
    set, a specialist otherwise. *)
Fixpoint alternates (coordinator : bool) (ids : list NodeId) : bool :=
  match ids with
  | [] => true
  | id :: rest =>
      (if coordinator then String.eqb id "supervisor"
       else String.eqb id "researcher" || String.eqb id "writer" || String.eqb id "reviewer")
      && alternates (negb coordinator) rest
  end.

(** A handoff agent that always asks for [target] next and marks the task
    as not complete. *)
Definition insists (target : string) : Node Scripted.World :=
  λ _, ret {| u_messages := [AIMessage "working on it"];
              u_fields := {[ "next_agent" := VStr target; "task_complete" := VBool false ]} |}.

(** A model service that names the researcher whenever the coordinator
    asks and answers every specialist in prose. *)
Definition diligent
  : Supervisor.ChatOpenAI → list (Message + string) → Collab Scripted.World Message :=
  λ _ inputs,
    match inputs with
    | inl m :: _ =>
        if String.eqb (content m) (Supervisor.system_prompt Supervisor.supervisor)
        then ret (AIMessage "researcher")
        else ret (AIMessage "Studies report that meditation lowers stress.")
    | _ => ret (AIMessage "Studies report that meditation lowers stress.")
    end.

(** A graph that reaches its self-routing node only after another node. *)
Definition detour : Graph Scripted.World :=
  {| registry := [("first", Scripted.closer "go on"); ("spin", Scripted.closer "again")];
     static := [(START, "first"); ("first", "spin")];
     conditional := [("spin", λ _, ret "spin")];
     start := "first" |}.

(** ** Occurrence of a word whatever its case, stated on the text itself *)

(** Two characters are the same letter when they are equal or one is the
    upper-case form (A to Z) of the other. *)
Definition same_letter (c d : ascii) : Prop :=
  c = d ∨
  (65 ≤ nat_of_ascii c ≤ 90 ∧ nat_of_ascii d = nat_of_ascii c + 32) ∨
  (65 ≤ nat_of_ascii d ≤ 90 ∧ nat_of_ascii c = nat_of_ascii d + 32).

Fixpoint caseless (a b : string) : Prop :=
  match a, b with
  | EmptyString, EmptyString => True
  | String c a', String d b' => same_letter c d ∧ caseless a' b'
  | _, _ => False
  end.

(** [word] occurs in [text], in any mix of upper and lower case. *)
Definition occurs (word text : string) : Prop :=
  ∃ before found after,
    text = String.append before (String.append found after) ∧ caseless found word.

Fixpoint no_space (s : string) : bool :=
  match s with
  | EmptyString => true
  | String c t => negb (PyStr.isspace c) && no_space t
  end.

(** * Properties *)

(** ** The two programs compile to the graphs studied below *)

Lemma supervisor_compiles {World : Type}
    (llm_invoke : Supervisor.ChatOpenAI → list (Message + string) → Collab World Message) :
  Supervisor.create_supervisor_swarm llm_invoke = inr (Supervisor.graph llm_invoke).
Proof. reflexivity. Qed.

Lemma handoff_compiles {World : Type} (triage technical creative data : Node World) :
  Handoff.create_handoff_swarm triage technical creative data
  = inr (Handoff.graph triage technical creative data).
Proof. reflexivity. Qed.

(** ** Containment is substring containment *)

Lemma append_cons (c : ascii) (a b : string) :
  String.append (String c a) b = String c (String.append a b).
Proof. reflexivity. Qed.

Lemma startswith_spec (p s : string) :
  PyStr.startswith p s = true ↔ ∃ t, s = String.append p t.
Proof.
  revert s. induction p as [|a p IH]; intros s; simpl.
  - split; [intros _; by exists s | done].
  - setoid_rewrite append_cons. destruct s as [|b s].
    + split; [done | intros [t Ht]; discriminate].
    + destruct (Ascii.eqb_spec a b) as [->|Hab].
      * rewrite IH. split; intros [t Ht]; exists t; congruence.
      * split; [done | intros [t Ht]; congruence].
Qed.

Lemma contains_spec (needle hay : string) :
  PyStr.contains needle hay = true
  ↔ ∃ before after, hay = String.append before (String.append needle after).
Proof.
  induction hay as [|c hay IH]; simpl.
  - rewrite orb_false_r, startswith_spec. split.
    + intros [t Ht]. by exists EmptyString, t.
    + intros (a & b & Hab). destruct a; [|rewrite append_cons in Hab; discriminate].
      exists b. exact Hab.
  - rewrite orb_true_iff, startswith_spec, IH. split.
    + intros [[t Ht]|(a & b & Hab)].
      * by exists EmptyString, t.
      * exists (String c a), b. rewrite append_cons. by rewrite Hab.
    + intros (a & b & Hab). destruct a as [|c' a].
      * left. by exists b.
      * right. rewrite append_cons in Hab. exists a, b. congruence.
Qed.

(** ** The labels [classify] can produce *)

Lemma classify_range (text : string) :
  Supervisor.classify text ∈ ["finish"; "researcher"; "writer"; "reviewer"].
Proof.
  unfold Supervisor.classify.
  repeat match goal with |- context [if ?b then _ else _] => destruct b end;
    set_solver.
Qed.

Lemma route_eq {World : Type} llm_invoke self msgs (w w' : World) response :
  llm_invoke (Supervisor.llm self)
    (inl (SystemMessage (Supervisor.system_prompt self)) :: map inl msgs) w
    = (w', inr response) →
  Supervisor.route llm_invoke self msgs w
  = (w', inr (Supervisor.classify (content response))).
Proof. intros H. unfold Supervisor.route, bind, ret. by rewrite H. Qed.

Lemma route_fails {World : Type} llm_invoke self msgs (w w' : World) f :
  llm_invoke (Supervisor.llm self)
    (inl (SystemMessage (Supervisor.system_prompt self)) :: map inl msgs) w
    = (w', inl f) →
  Supervisor.route llm_invoke self msgs w = (w', inl f).
Proof. intros H. unfold Supervisor.route, bind, ret. by rewrite H. Qed.

(** ** The handoff router *)

Lemma py_in_handoff_targets (v : Value) :
  py_in v [VStr "technical"; VStr "creative"; VStr "data"] = true
  ↔ v = VStr "technical" ∨ v = VStr "creative" ∨ v = VStr "data".
Proof.
  unfold py_in. simpl. rewrite orb_false_r, !orb_true_iff. split.
  - destruct v as [| | |s]; simpl; try (intros [|[|]]; discriminate).
    rewrite !String.eqb_eq. intros [-> | [-> | ->]]; auto.
  - intros [-> | [-> | ->]]; simpl; auto.
Qed.

Lemma route_next_range (state : State) :
  Handoff.route_next state ∈ ["technical"; "creative"; "data"; END].
Proof.
  unfold Handoff.route_next.
  destruct (truthy _); [set_solver|].
  destruct (py_in _ _) eqn:Hin; [|set_solver].
  apply py_in_handoff_targets in Hin as [-> | [-> | ->]]; set_solver.
Qed.

(** C4. When the task-complete field is set, [route_next] returns [END],
    whatever the next-agent field holds. *)
Theorem route_next_complete (state : State) :
  truthy (state_get state "task_complete" (VBool false)) = true →
  Handoff.route_next state = END ∧
  ∀ target : Value,
    Handoff.route_next
      {| messages := messages state;
         fields := <["next_agent" := target]> (fields state) |} = END.
Proof.
  intros Hdone. split.
  - unfold Handoff.route_next. by rewrite Hdone.
  - intros target. unfold Handoff.route_next, state_get in *. simpl.
    rewrite lookup_insert_ne by done. by rewrite Hdone.
Qed.

Lemma route_next_complete_witness :
  let state :=
    {| messages := [];
       fields := <["task_complete" := VBool true]> {["next_agent" := VStr "data"]} |} in
  truthy (state_get state "task_complete" (VBool false)) = true ∧
  Handoff.route_next state = END.
Proof.
  intros state. split; [reflexivity|].
  exact (proj1 (route_next_complete state eq_refl)).
Defined.

(** C6. When the task-complete field is unset or false, [route_next]
    returns the next-agent field if it names one of the nodes the router
    may hand over to, and [END] if the field is absent or names anything
    else. *)
Theorem route_next_target (state : State) :
  truthy (state_get state "task_complete" (VBool false)) = false →
  (∀ target : NodeId,
     fields state !! "next_agent" = Some (VStr target) →
     target ∈ ["technical"; "creative"; "data"] →
     Handoff.route_next state = target) ∧
  (fields state !! "next_agent" = None → Handoff.route_next state = END) ∧
  (∀ v : Value,
     fields state !! "next_agent" = Some v →
     v ∉ [VStr "technical"; VStr "creative"; VStr "data"] →
     Handoff.route_next state = END).
Proof.
  intros Hopen. unfold Handoff.route_next. rewrite Hopen.
  unfold state_get. repeat split.
  - intros target -> Hin.
    assert (py_in (VStr target) [VStr "technical"; VStr "creative"; VStr "data"] = true) as ->.
    { apply py_in_handoff_targets.
      rewrite !elem_of_cons, elem_of_nil in Hin.
      destruct Hin as [-> | [-> | [-> | []]]]; auto. }
    reflexivity.
  - intros ->. reflexivity.
  - intros v -> Hout.
    destruct (py_in v _) eqn:Hin; [|done].
    apply py_in_handoff_targets in Hin.
    rewrite !elem_of_cons, elem_of_nil in Hout. exfalso. apply Hout. tauto.
Qed.

Lemma route_next_target_witness :
  let state :=
    {| messages := [];
       fields := <["task_complete" := VBool false]> {["next_agent" := VStr "creative"]} |} in
  truthy (state_get state "task_complete" (VBool false)) = false ∧
  Handoff.route_next state = "creative".
Proof.
  intros state. split; [reflexivity|].
  apply (proj1 (route_next_target state eq_refl) "creative"); [reflexivity|].
  set_solver.
Defined.

(** ** The supervisor router *)

Lemma supervisor_router_eq {World : Type} llm_invoke state (w w' : World) response :
  llm_invoke (Supervisor.llm Supervisor.supervisor)
    (inl (SystemMessage (Supervisor.system_prompt Supervisor.supervisor))
       :: map inl (messages state)) w
    = (w', inr response) →
  Supervisor.supervisor_router llm_invoke state w
  = (w', inr (if String.eqb (Supervisor.classify (content response)) "finish"
              then END else Supervisor.classify (content response))).
Proof.
  intros H. unfold Supervisor.supervisor_router, bind.
  rewrite (route_eq _ _ _ _ _ _ H). by destruct (String.eqb _ _).
Qed.

Lemma supervisor_router_fails {World : Type} llm_invoke state (w w' : World) f :
  llm_invoke (Supervisor.llm Supervisor.supervisor)
    (inl (SystemMessage (Supervisor.system_prompt Supervisor.supervisor))
       :: map inl (messages state)) w
    = (w', inl f) →
  Supervisor.supervisor_router llm_invoke state w = (w', inl f).
Proof.
  intros H. unfold Supervisor.supervisor_router, bind.
  by rewrite (route_fails _ _ _ _ _ _ H).
Qed.

(** C5. A reply whose normalized text contains none of the four labels
    makes [SupervisorAgent.route] fall back to finish, and
    [supervisor_router] then returns [END] rather than failing. *)
Theorem route_fallback {World : Type} llm_invoke state (w w' : World) response :
  llm_invoke (Supervisor.llm Supervisor.supervisor)
    (inl (SystemMessage (Supervisor.system_prompt Supervisor.supervisor))
       :: map inl (messages state)) w
    = (w', inr response) →
  let text := PyStr.lower (PyStr.strip (content response)) in
  PyStr.contains "finish" text = false →
  PyStr.contains "researcher" text = false →
  PyStr.contains "writer" text = false →
  PyStr.contains "reviewer" text = false →
  Supervisor.route llm_invoke Supervisor.supervisor (messages state) w
    = (w', inr "finish") ∧
  Supervisor.supervisor_router llm_invoke state w = (w', inr END).
Proof.
  intros H text Hf Hr Hw Hv.
  assert (Supervisor.classify (content response) = "finish") as Hc.
  { unfold Supervisor.classify. fold text. by rewrite Hf, Hr, Hw, Hv. }
  split.
  - rewrite (route_eq _ _ _ _ _ _ H). by rewrite Hc.
  - rewrite (supervisor_router_eq _ _ _ _ _ H). by rewrite Hc.
Qed.

Lemma route_fallback_witness :
  let reply := "I am not sure what to do next." in
  Scripted.llm_invoke (Supervisor.llm Supervisor.supervisor)
    (inl (SystemMessage (Supervisor.system_prompt Supervisor.supervisor))
       :: map inl (messages Scripted.initial)) [reply]
    = ([], inr (AIMessage reply)) ∧
  Supervisor.route Scripted.llm_invoke Supervisor.supervisor
    (messages Scripted.initial) [reply] = ([], inr "finish") ∧
  Supervisor.supervisor_router Scripted.llm_invoke Scripted.initial [reply]
    = ([], inr END).
Proof.
  intros reply. split; [reflexivity|].
  apply (route_fallback Scripted.llm_invoke Scripted.initial [reply] []
           (AIMessage reply) eq_refl); reflexivity.
Defined.

(** ** The engine: termination, bounds and the append-only history *)

Section EngineFacts.

Context {World : Type}.
Variable g : Graph World.
Variable maxSteps : nat.

(** With the step counter at [n], [maxSteps - n + 1] iterations suffice. *)
Lemma loop_total (fuel : nat) current state n (w : World) :
  n ≤ maxSteps → maxSteps - n < fuel →
  ∃ w' r, loop g maxSteps fuel current state n w = Some (w', r).
Proof.
  revert current state n w.
  induction fuel as [|fuel IH]; intros current state n w Hn Hfuel; [lia|].
  simpl.
  destruct (String.eqb current END); [eauto|].
  destruct (Nat.eqb_spec n maxSteps) as [|Hne]; [eauto|].
  destruct (assoc current (registry g)) as [process|]; [|eauto].
  destruct (process state w) as [w1 [f|update]]; [eauto|].
  destruct (resolve g current (merge state update) w1) as [w2 [e|next]]; [eauto|].
  destruct (valid g next); [|eauto].
  destruct (IH next (merge state update) (S n) w2) as (w3 & r & ->); [lia..|].
  eauto.
Qed.

Lemma loop_bounds (fuel : nat) current state n (w w' : World) r :
  loop g maxSteps fuel current state n w = Some (w', r) →
  n ≤ maxSteps →
  length (executed r) + n ≤ maxSteps ∧ n ≤ steps r ≤ maxSteps.
Proof.
  revert current state n w w' r.
  induction fuel as [|fuel IH]; intros current state n w w' r Hrun Hn; [done|].
  simpl in Hrun.
  destruct (Nat.eqb_spec n maxSteps) as [|Hne];
    repeat case_match; simplify_eq; simpl; try lia.
  match goal with H : loop _ _ _ _ _ _ _ = Some _ |- _ =>
    apply IH in H as [? ?]; [lia|lia] end.
Qed.

Lemma merge_prefix (state : State) (update : Update) :
  messages state `prefix_of` messages (merge state update).
Proof. by exists (u_messages update). Qed.

Lemma merge_length (state : State) (update : Update) :
  length (messages state) ≤ length (messages (merge state update)).
Proof. simpl. rewrite length_app. lia. Qed.

Lemma append_only_single (state : State) : append_only [state].
Proof. intros [|k] s s' Hs Hs'; simpl in *; done. Qed.

Lemma append_only_cons (state : State) (update : Update) (h : list State) :
  head h = Some (merge state update) → append_only h → append_only (state :: h).
Proof.
  intros Hhead Hh [|k] s s' Hs Hs'; simpl in *.
  - destruct h as [|s1 h]; simpl in *; simplify_eq.
    split; [apply merge_prefix|apply merge_length].
  - by apply (Hh k).
Qed.

(** The recorded states start at the state the loop was entered with,
    grow only by appended messages, and end at the returned state. *)
Lemma loop_history (fuel : nat) current state n (w w' : World) r :
  loop g maxSteps fuel current state n w = Some (w', r) →
  head (history r) = Some state ∧
  append_only (history r) ∧
  ∀ final, outcome r = inr final →
    last (history r) = Some final ∧ messages state `prefix_of` messages final.
Proof.
  revert current state n w w' r.
  induction fuel as [|fuel IH]; intros current state n w w' r Hrun; [done|].
  simpl in Hrun.
  repeat case_match; simplify_eq; simpl;
    try (split; [done|]; split; [apply append_only_single|];
         intros final Hfinal; by simplify_eq).
  match goal with H : loop _ _ _ _ _ _ _ = Some _ |- _ =>
    apply IH in H as (Hhead & Hgrow & Hfinal) end.
  split; [done|]. split; [by eapply append_only_cons|].
  intros final Hout. destruct (Hfinal final Hout) as [Hlast Hpre].
  split.
  - match goal with |- last (_ :: history ?r0) = _ =>
      destruct (history r0); [done|exact Hlast] end.
  - etrans; [apply merge_prefix|exact Hpre].
Qed.

End EngineFacts.

(** ** Bounded execution *)

Lemma assoc_registered {A : Type} (id : NodeId) (l : list (NodeId * A)) (v : A) :
  assoc id l = Some v → registered (map fst l) id = true.
Proof.
  induction l as [|[k x] l IH]; simpl; [done|].
  rewrite (String.eqb_sym id k).
  destruct (String.eqb k id); [done|]. exact IH.
Qed.

Lemma loop_trapped {World : Type} (g : Graph World) (maxSteps : nat) (P : NodeId → Prop) :
  trapped g P →
  ∀ fuel current k state (w : World),
    P current → k ≤ maxSteps → maxSteps - k < fuel →
    ∃ w' r, loop g maxSteps fuel current state k w = Some (w', r) ∧
      raised ExecutionLimitExceeded r ∧ steps r = maxSteps ∧
      length (executed r) = maxSteps - k.
Proof.
  intros Htrap.
  induction fuel as [|fuel IH]; intros current k state w HP Hk Hfuel; [lia|].
  destruct (Htrap current HP) as (Hend & process & Hnode & Hproc & Hnext).
  simpl. apply String.eqb_neq in Hend. rewrite Hend.
  destruct (Nat.eqb_spec k maxSteps) as [->|Hne].
  { do 2 eexists. split; [done|]. by rewrite Nat.sub_diag. }
  rewrite Hnode.
  destruct (Hproc state w) as (w1 & update & ->).
  destruct (Hnext (merge state update) w1) as (w2 & next & -> & HPnext).
  destruct (Htrap next HPnext) as (_ & process' & Hnode' & _).
  unfold valid. rewrite (assoc_registered _ _ _ Hnode'). simpl.
  destruct (IH next (S k) (merge state update) w2) as (w3 & r & -> & Hr & Hs & He);
    [done|lia..|].
  do 2 eexists. split; [done|]. simpl. rewrite He.
  repeat split; [exact Hr|exact Hs|lia].
Qed.

(** ** Routing stays inside the graph *)

Lemma resolve_error {World : Type} (g : Graph World) current state (w w' : World) e :
  resolve g current state w = (w', inl e) →
  e = ConfigurationError ∨ ∃ f, e = CollaboratorFailure f.
Proof.
  unfold resolve. intros H. repeat case_match; simplify_eq; eauto.
Qed.

(** If every target resolved from a registered node is a valid one, no run
    ends in a routing error. *)
Lemma loop_closed_routing {World : Type} (g : Graph World) (maxSteps : nat) :
  (∀ current state (w w' : World) next,
     is_Some (assoc current (registry g)) →
     resolve g current state w = (w', inr next) → valid g next = true) →
  ∀ fuel current state n (w w' : World) r,
    loop g maxSteps fuel current state n w = Some (w', r) →
    is_routing_error (outcome r) = false.
Proof.
  intros Hclosed.
  induction fuel as [|fuel IH]; intros current state n w w' r Hrun; [done|].
  simpl in Hrun.
  destruct (String.eqb current END); [by simplify_eq|].
  destruct (n =? maxSteps); [by simplify_eq|].
  destruct (assoc current (registry g)) as [process|] eqn:Hnode; [|by simplify_eq].
  destruct (process state w) as [w1 [f|update]]; [by simplify_eq|].
  destruct (resolve g current (merge state update) w1) as [w2 [e|next]] eqn:Hnext.
  { simplify_eq. simpl.
    by destruct (resolve_error _ _ _ _ _ _ Hnext) as [->|[f ->]]. }
  rewrite (Hclosed current (merge state update) w1 w2 next) in Hrun by eauto.
  destruct (loop g maxSteps fuel next _ _ w2) as [[w3 r0]|] eqn:Hrec; [|done].
  simplify_eq. simpl. by eapply IH.
Qed.

(** ** A node no edge leads back to *)

(** If no target resolved from a registered node is [x], a run entered at
    another node never executes [x]. *)
Lemma loop_never_enters {World : Type} (g : Graph World) (maxSteps : nat) (x : NodeId) :
  (∀ current state (w w' : World) next,
     is_Some (assoc current (registry g)) →
     resolve g current state w = (w', inr next) → next ≠ x) →
  ∀ fuel current state n (w w' : World) r,
    current ≠ x →
    loop g maxSteps fuel current state n w = Some (w', r) →
    x ∉ executed r.
Proof.
  intros Hnever.
  induction fuel as [|fuel IH]; intros current state n w w' r Hne Hrun; [done|].
  simpl in Hrun.
  destruct (String.eqb current END); [simplify_eq; apply not_elem_of_nil|].
  destruct (n =? maxSteps); [simplify_eq; apply not_elem_of_nil|].
  destruct (assoc current (registry g)) as [process|] eqn:Hnode;
    [|simplify_eq; apply not_elem_of_nil].
  assert (x ∉ [current]) as Hsingle.
  { rewrite elem_of_cons, elem_of_nil. intros [->|[]]. done. }
  destruct (process state w) as [w1 [f|update]]; [by simplify_eq|].
  destruct (resolve g current (merge state update) w1) as [w2 [e|next]] eqn:Hnext;
    [by simplify_eq|].
  destruct (valid g next); [|by simplify_eq].
  destruct (loop g maxSteps fuel next _ _ w2) as [[w3 r0]|] eqn:Hrec; [|done].
  simplify_eq. simpl. rewrite elem_of_cons. intros [->|Hin]; [done|].
  revert Hin. eapply IH; [|exact Hrec]. eapply Hnever; [|exact Hnext]. eauto.
Qed.

(** The start node of such a graph runs first, and only then, provided at
    least one step is allowed. *)
Lemma invoke_start_once {World : Type} (g : Graph World) (maxSteps : nat) :
  (∀ current state (w w' : World) next,
     is_Some (assoc current (registry g)) →
     resolve g current state w = (w', inr next) → next ≠ start g) →
  is_Some (assoc (start g) (registry g)) → start g ≠ END →
  ∀ initial (w w' : World) r,
    invoke g initial (S maxSteps) w = Some (w', r) →
    ∃ rest, executed r = start g :: rest ∧ start g ∉ rest.
Proof.
  intros Hnever [process Hnode] Hend initial w w' r Hrun.
  unfold invoke in Hrun.
  remember (S maxSteps) as fuel eqn:Hfuel in Hrun at 2.
  cbn [loop] in Hrun.
  apply String.eqb_neq in Hend. rewrite Hend, Hnode in Hrun.
  replace (0 =? S maxSteps) with false in Hrun by done.
  destruct (process initial w) as [w1 [f|update]].
  { simplify_eq. exists []. split; [done|apply not_elem_of_nil]. }
  destruct (resolve g (start g) (merge initial update) w1) as [w2 [e|next]] eqn:Hnext.
  { simplify_eq. exists []. split; [done|apply not_elem_of_nil]. }
  destruct (valid g next).
  2:{ simplify_eq. exists []. split; [done|apply not_elem_of_nil]. }
  destruct (loop g (S maxSteps) fuel next (merge initial update) 1 w2)
    as [[w3 r0]|] eqn:Hrec; [|done].
  simplify_eq. exists (executed r0). split; [done|].
  eapply loop_never_enters; [exact Hnever| |exact Hrec].
  eapply Hnever; [|exact Hnext]. eauto.
Qed.

(** ** The supervisor graph, one iteration at a time *)

Section SupervisorFacts.

Context {World : Type}.
Variable llm_invoke : Supervisor.ChatOpenAI → list (Message + string) → Collab World Message.

Lemma supervisor_registry (current : NodeId) :
  is_Some (assoc current (registry (Supervisor.graph llm_invoke))) ↔ is_specialist current ∨ current = "supervisor".
Proof.
  unfold is_specialist. cbn [assoc registry Supervisor.graph].
  destruct (String.eqb_spec "researcher" current) as [<-|?]; [split; eauto|].
  destruct (String.eqb_spec "writer" current) as [<-|?]; [split; eauto|].
  destruct (String.eqb_spec "reviewer" current) as [<-|?]; [split; eauto 6|].
  destruct (String.eqb_spec "supervisor" current) as [<-|?]; [split; eauto|].
  split; [by intros [? ?]|]. intros [[|[|]]|]; congruence.
Qed.

Lemma resolve_specialist (current : NodeId) state (w : World) :
  is_specialist current → resolve (Supervisor.graph llm_invoke) current state w = (w, inr "supervisor").
Proof. intros [-> | [-> | ->]]; reflexivity. Qed.

Lemma resolve_supervisor state (w : World) :
  resolve (Supervisor.graph llm_invoke) "supervisor" state w =
  match Supervisor.supervisor_router llm_invoke state w with
  | (w', inl f) => (w', inl (CollaboratorFailure f))
  | (w', inr next) => (w', inr next)
  end.
Proof. reflexivity. Qed.

Lemma supervisor_router_range state (w w' : World) target :
  Supervisor.supervisor_router llm_invoke state w = (w', inr target) →
  is_specialist target ∨ target = END.
Proof.
  unfold Supervisor.supervisor_router, Supervisor.route, bind, ret, is_specialist.
  destruct (llm_invoke _ _ w) as [w1 [f|response]]; [done|].
  pose proof (classify_range (content response)) as Hrange.
  rewrite !elem_of_cons, elem_of_nil in Hrange.
  destruct Hrange as [-> | [-> | [-> | [-> | []]]]]; simpl;
    intros ?; simplify_eq; auto.
Qed.

Lemma supervisor_valid (target : NodeId) :
  is_specialist target ∨ target = "supervisor" ∨ target = END → valid (Supervisor.graph llm_invoke) target = true.
Proof. intros [[-> | [-> | ->]] | [-> | ->]]; reflexivity. Qed.

Lemma supervisor_closed current state (w w' : World) next :
  is_Some (assoc current (registry (Supervisor.graph llm_invoke))) →
  resolve (Supervisor.graph llm_invoke) current state w = (w', inr next) → valid (Supervisor.graph llm_invoke) next = true.
Proof.
  rewrite supervisor_registry. intros [Hspec | ->].
  - rewrite (resolve_specialist _ _ _ Hspec). intros ?; simplify_eq. reflexivity.
  - rewrite resolve_supervisor.
    destruct (Supervisor.supervisor_router llm_invoke state w) as [w1 [f|t]] eqn:Hr; [done|].
    intros ?; simplify_eq. apply supervisor_valid.
    destruct (supervisor_router_range _ _ _ _ Hr); auto.
Qed.

End SupervisorFacts.

(** ** How a run ends *)

Lemma outcome_cases (r : Run) :
  finished r ∨ raised ExecutionLimitExceeded r ∨ (∃ target, raised (RoutingError target) r)
  ∨ raised ConfigurationError r ∨ (∃ f, raised (CollaboratorFailure f) r).
Proof.
  unfold finished, raised. destruct (outcome r) as [[| | |]|]; eauto 10.
Qed.

Lemma invoke_total {World : Type} (g : Graph World) initial maxSteps (w : World) :
  ∃ w' r, invoke g initial maxSteps w = Some (w', r) ∧
    length (executed r) ≤ maxSteps ∧ steps r ≤ maxSteps.
Proof.
  destruct (loop_total g maxSteps (S maxSteps) (start g) initial 0 w) as (w' & r & Hrun);
    [lia..|].
  exists w', r. split; [exact Hrun|].
  apply loop_bounds in Hrun; lia.
Qed.


(** C9. [supervisor_router] either fails with the collaborator or returns
    one of researcher, writer, reviewer and [END]; no run of the supervisor
    graph ends in a routing error. *)
Theorem supervisor_router_closed {World : Type} llm_invoke state initial maxSteps (w : World) :
  (∃ w', (∃ f, Supervisor.supervisor_router llm_invoke state w = (w', inl f)) ∨
         (∃ target, Supervisor.supervisor_router llm_invoke state w = (w', inr target) ∧
                    target ∈ ["researcher"; "writer"; "reviewer"; END])) ∧
  (∃ w' r, invoke (Supervisor.graph llm_invoke) initial maxSteps w = Some (w', r) ∧
           is_routing_error (outcome r) = false).
Proof.
  split.
  - destruct (Supervisor.supervisor_router llm_invoke state w) as [w' [f|target]] eqn:Hr.
    + exists w'. left. by exists f.
    + exists w'. right. exists target. split; [done|].
      rewrite !elem_of_cons.
      destruct (supervisor_router_range _ _ _ _ _ Hr) as [[-> | [-> | ->]] | ->]; auto.
  - destruct (invoke_total (Supervisor.graph llm_invoke) initial maxSteps w)
      as (w' & r & Hrun & _).
    exists w', r. split; [exact Hrun|].
    eapply loop_closed_routing; [|exact Hrun]. apply supervisor_closed.
Qed.

(** ** The message history *)

Lemma invoke_append_only {World : Type} (g : Graph World) initial maxSteps (w : World) :
  ∃ w' r, invoke g initial maxSteps w = Some (w', r) ∧
    head (history r) = Some initial ∧
    append_only (history r) ∧
    ∀ final, outcome r = inr final →
      last (history r) = Some final ∧ messages initial `prefix_of` messages final.
Proof.
  destruct (invoke_total g initial maxSteps w) as (w' & r & Hrun & _).
  exists w', r. split; [exact Hrun|]. by eapply loop_history.
Qed.

(** C2. In every run of the supervisor graph and of the handoff graph the
    message sequence of each recorded state is a prefix of the next one's,
    so its length never decreases and the initial sequence is a prefix of
    the final one; the coordinator's hand-back of the whole list is merged
    by appending too. *)
Theorem messages_append_only {World : Type} llm_invoke
    (triage technical creative data : Node World) initial maxSteps (w : World) :
  (∃ w' r, invoke (Supervisor.graph llm_invoke) initial maxSteps w = Some (w', r) ∧
     head (history r) = Some initial ∧ append_only (history r) ∧
     ∀ final, outcome r = inr final →
       last (history r) = Some final ∧ messages initial `prefix_of` messages final) ∧
  (∃ w' r, invoke (Handoff.graph triage technical creative data) initial maxSteps w
           = Some (w', r) ∧
     head (history r) = Some initial ∧ append_only (history r) ∧
     ∀ final, outcome r = inr final →
       last (history r) = Some final ∧ messages initial `prefix_of` messages final) ∧
  (∃ update, Supervisor.supervisor_node initial w = (w, inr update) ∧
     u_messages update = messages initial ∧
     messages initial `prefix_of` messages (merge initial update) ∧
     length (messages initial) ≤ length (messages (merge initial update))).
Proof.
  split; [apply invoke_append_only|]. split; [apply invoke_append_only|].
  eexists. split; [reflexivity|]. split; [reflexivity|].
  split; [apply merge_prefix|apply merge_length].
Qed.

(** ** The handoff graph *)

Section HandoffFacts.

Context {World : Type}.
Variables triage technical creative data : Node World.

Lemma route_next_not_triage (state : State) : Handoff.route_next state ≠ "triage".
Proof.
  pose proof (route_next_range state) as Hrange.
  rewrite !elem_of_cons, elem_of_nil in Hrange.
  destruct Hrange as [-> | [-> | [-> | [-> | []]]]]; done.
Qed.

Lemma handoff_resolve current state (w w' : World) next :
  is_Some (assoc current (registry (Handoff.graph triage technical creative data))) →
  resolve (Handoff.graph triage technical creative data) current state w = (w', inr next) →
  next = Handoff.route_next state.
Proof.
  unfold resolve. cbn [assoc registry static conditional Handoff.graph].
  destruct (String.eqb_spec "triage" current) as [<-|?].
  { intros _. cbv. intros ?; by simplify_eq. }
  destruct (String.eqb_spec "technical" current) as [<-|?].
  { intros _. cbv. intros ?; by simplify_eq. }
  destruct (String.eqb_spec "creative" current) as [<-|?].
  { intros _. cbv. intros ?; by simplify_eq. }
  destruct (String.eqb_spec "data" current) as [<-|?].
  { intros _. cbv. intros ?; by simplify_eq. }
  by intros [? ?].
Qed.

Lemma handoff_never_triage current state (w w' : World) next :
  is_Some (assoc current (registry (Handoff.graph triage technical creative data))) →
  resolve (Handoff.graph triage technical creative data) current state w = (w', inr next) → next ≠ start (Handoff.graph triage technical creative data).
Proof.
  intros Hreg Hres. rewrite (handoff_resolve _ _ _ _ _ Hreg Hres).
  apply route_next_not_triage.
Qed.

End HandoffFacts.

(** C10. [route_next] never returns triage, the only static edge into
    triage is the one out of [START], and every router of the handoff graph
    is [route_next]; so in every run of the handoff graph triage is
    executed exactly once, as the first node.  A run is allowed at least
    one step: its bound is [S maxSteps]. *)
Theorem triage_runs_first {World : Type} (triage technical creative data : Node World)
    initial maxSteps (w : World) :
  let G := Handoff.graph triage technical creative data in
  (∀ state, Handoff.route_next state ≠ "triage") ∧
  filter (λ e, snd e = "triage") (static G) = [(START, "triage")] ∧
  Forall (λ e, ∀ state (w0 : World),
            snd e state w0 = (w0, inr (Handoff.route_next state))) (conditional G) ∧
  (∃ w' r rest, invoke G initial (S maxSteps) w = Some (w', r) ∧
     executed r = "triage" :: rest ∧ "triage" ∉ rest).
Proof.
  intros G. split; [apply route_next_not_triage|]. split; [reflexivity|].
  split; [repeat constructor|].
  destruct (invoke_total G initial (S maxSteps) w) as (w' & r & Hrun & _).
  destruct (invoke_start_once G maxSteps
              (handoff_never_triage triage technical creative data)
              (ltac:(by eexists)) (ltac:(done)) initial w w' r Hrun)
    as (rest & Hexec & Hrest).
  by exists w', r, rest.
Qed.

(** ** Scenario B on the supervisor graph *)

Lemma loop_unfold {World : Type} (g : Graph World) maxSteps fuel current state n (w : World) :
  loop g maxSteps (S fuel) current state n w =
  if String.eqb current END then Some (w, halt state n (inr state))
  else if Nat.eqb n maxSteps then Some (w, halt state n (inl ExecutionLimitExceeded))
  else
    match assoc current (registry g) with
    | None => Some (w, halt state n (inl ConfigurationError))
    | Some process =>
        match process state w with
        | (w1, inl f) => Some (w1, abort current state n (CollaboratorFailure f))
        | (w1, inr update) =>
            let state' := merge state update in
            match resolve g current state' w1 with
            | (w2, inl e) => Some (w2, abort current state n e)
            | (w2, inr next) =>
                if valid g next then
                  match loop g maxSteps fuel next state' (S n) w2 with
                  | None => None
                  | Some (w3, r) => Some (w3, ran current state r)
                  end
                else Some (w2, abort current state n (RoutingError next))
            end
        end
    end.
Proof. reflexivity. Qed.

Section ScenarioB.

Context {World : Type}.
Variable llm_invoke : Supervisor.ChatOpenAI → list (Message + string) → Collab World Message.

Lemma loop_at_supervisor maxSteps fuel state n (w w' : World) next :
  n ≠ maxSteps →
  Supervisor.supervisor_router llm_invoke (pass_through state) w = (w', inr next) →
  loop (Supervisor.graph llm_invoke) maxSteps (S fuel) "supervisor" state n w =
  match loop (Supervisor.graph llm_invoke) maxSteps fuel next (pass_through state) (S n) w' with
  | None => None
  | Some (w3, r) => Some (w3, ran "supervisor" state r)
  end.
Proof.
  intros Hn Hroute. rewrite loop_unfold.
  apply Nat.eqb_neq in Hn. rewrite Hn.
  change (String.eqb "supervisor" END) with false.
  change (assoc "supervisor" (registry (Supervisor.graph llm_invoke)))
    with (Some (@Supervisor.supervisor_node World)).
  cbv beta iota zeta delta [Supervisor.supervisor_node ret]. fold (pass_through state).
  rewrite (resolve_supervisor llm_invoke), Hroute.
  rewrite (supervisor_closed llm_invoke "supervisor" (pass_through state) w w' next);
    [reflexivity|by eexists|].
  by rewrite (resolve_supervisor llm_invoke), Hroute.
Qed.

Lemma loop_at_researcher maxSteps fuel state n (w w' : World) update :
  n ≠ maxSteps →
  Supervisor.process llm_invoke Supervisor.researcher state w = (w', inr update) →
  loop (Supervisor.graph llm_invoke) maxSteps (S fuel) "researcher" state n w =
  match loop (Supervisor.graph llm_invoke) maxSteps fuel "supervisor" (merge state update) (S n) w' with
  | None => None
  | Some (w3, r) => Some (w3, ran "researcher" state r)
  end.
Proof.
  intros Hn Hproc. rewrite loop_unfold.
  apply Nat.eqb_neq in Hn. rewrite Hn.
  change (String.eqb "researcher" END) with false.
  change (assoc "researcher" (registry (Supervisor.graph llm_invoke)))
    with (Some (Supervisor.process llm_invoke Supervisor.researcher)).
  cbv beta iota. rewrite Hproc. cbv zeta.
  rewrite (resolve_specialist llm_invoke "researcher") by (by left).
  reflexivity.
Qed.

End ScenarioB.

(** ** Determinism *)

Lemma assoc_Forall {A : Type} (P : A → Prop) (id : NodeId) (l : list (NodeId * A)) (v : A) :
  Forall (λ e, P (snd e)) l → assoc id l = Some v → P v.
Proof.
  induction 1 as [|[k x] l Hx _ IH]; simpl; [done|].
  destruct (String.eqb k id); [|exact IH]. intros ?; by simplify_eq.
Qed.

Lemma resolve_pure {World : Type} (g : Graph World) current state :
  pure_routers g →
  ∃ o : Error + NodeId, ∀ w : World, resolve g current state w = (w, o).
Proof.
  intros Hrouters. unfold resolve.
  destruct (assoc current (static g)) as [target|]; [by eexists|].
  destruct (assoc current (conditional g)) as [router|] eqn:Hcond; [|by eexists].
  destruct (assoc_Forall pure_router _ _ _ Hrouters Hcond) as [f Hf].
  exists (inr (f state)). intros w. by rewrite Hf.
Qed.

(** With pure routers and pure nodes the loop computes the same run in
    every world and leaves the world as it found it. *)
Lemma loop_pure {World : Type} (g : Graph World) (maxSteps : nat) :
  pure_routers g → pure_nodes g →
  ∀ fuel current state n,
    ∃ o : option Run, ∀ w : World,
      loop g maxSteps fuel current state n w = (λ r, (w, r)) <$> o.
Proof.
  intros Hrouters Hnodes.
  induction fuel as [|fuel IH]; intros current state n; [by exists None|].
  setoid_rewrite loop_unfold.
  destruct (String.eqb current END); [by eexists (Some _)|].
  destruct (n =? maxSteps); [by eexists (Some _)|].
  destruct (assoc current (registry g)) as [process|] eqn:Hnode; [|by eexists (Some _)].
  destruct (assoc_Forall pure_node _ _ _ Hnodes Hnode) as [f Hf].
  setoid_rewrite Hf.
  destruct (f state) as [failure|update]; [by eexists (Some _)|].
  cbv zeta.
  destruct (resolve_pure g current (merge state update) Hrouters) as [o Ho].
  setoid_rewrite Ho.
  destruct o as [e|next]; [by eexists (Some _)|].
  destruct (valid g next); [|by eexists (Some _)].
  destruct (IH next (merge state update) (S n)) as [o Hrec].
  setoid_rewrite Hrec.
  destruct o as [r|]; [by eexists (Some _)|by exists None].
Qed.

(** C8 (amended). When every router and every node's processing is a
    function of the state alone, two invocations on the same graph, initial
    state and step bound produce the same run, whatever the collaborator
    would have answered: the same final state or error, the same step
    count, the same executed nodes. *)
Theorem invoke_deterministic {World : Type} (g : Graph World) initial maxSteps (w1 w2 : World) :
  pure_routers g → pure_nodes g →
  ∃ r, invoke g initial maxSteps w1 = Some (w1, r) ∧
       invoke g initial maxSteps w2 = Some (w2, r).
Proof.
  intros Hrouters Hnodes. unfold invoke.
  destruct (loop_pure g maxSteps Hrouters Hnodes (S maxSteps) (start g) initial 0) as [o Ho].
  destruct (loop_total g maxSteps (S maxSteps) (start g) initial 0 w1) as (w' & r & Hrun);
    [lia..|].
  rewrite Ho in Hrun. destruct o as [r0|]; [|done].
  exists r0. by rewrite !Ho.
Qed.

Lemma scripted_handoff_pure :
  pure_routers Scripted.scripted_handoff ∧ pure_nodes Scripted.scripted_handoff.
Proof.
  split.
  - repeat constructor; by exists Handoff.route_next.
  - repeat constructor; by eexists (λ _, inr _).
Qed.

Lemma invoke_deterministic_witness :
  pure_routers Scripted.scripted_handoff ∧ pure_nodes Scripted.scripted_handoff ∧
  ∃ r, invoke Scripted.scripted_handoff Scripted.initial 25 ["technical"]
       = Some (["technical"], r) ∧
       invoke Scripted.scripted_handoff Scripted.initial 25 ["finish"; "data"]
       = Some (["finish"; "data"], r).
Proof.
  split; [exact (proj1 scripted_handoff_pure)|].
  split; [exact (proj2 scripted_handoff_pure)|].
  exact (invoke_deterministic Scripted.scripted_handoff Scripted.initial 25
           ["technical"] ["finish"; "data"]
           (proj1 scripted_handoff_pure) (proj2 scripted_handoff_pure)).
Defined.

(** C8 as stated fails: every router of this handoff graph is the pure
    [route_next], yet two invocations from the same initial state end in
    different states after different numbers of steps, because the triage
    agent's reply differs. *)
Lemma invoke_depends_on_collaborator :
  pure_routers Scripted.handoff ∧
  ∃ r1 r2 final1 final2,
    invoke Scripted.handoff Scripted.initial 25 ["technical"] = Some ([], r1) ∧
    invoke Scripted.handoff Scripted.initial 25 ["finish"] = Some ([], r2) ∧
    outcome r1 = inr final1 ∧ outcome r2 = inr final2 ∧
    steps r1 = 2 ∧ steps r2 = 1 ∧
    length (messages final1) = 3 ∧ length (messages final2) = 2 ∧
    outcome r1 ≠ outcome r2 ∧ steps r1 ≠ steps r2.
Proof.
  split; [repeat constructor; by exists Handoff.route_next|].
  do 4 eexists.
  split; [reflexivity|]. split; [reflexivity|].
  split; [reflexivity|]. split; [reflexivity|].
  split; [reflexivity|]. split; [reflexivity|].
  split; [reflexivity|]. split; [reflexivity|].
  split; [|simpl; lia].
  intros Heq.
  apply (f_equal (λ o : Error + State,
                    match o with inr s => length (messages s) | inl _ => 0 end)) in Heq.
  simpl in Heq. lia.
Qed.

(** * Further properties of the routing code *)

(** ** Normalization in [SupervisorAgent.route] *)

Lemma isspace_lower_char (c : ascii) : PyStr.isspace (PyStr.lower_char c) = PyStr.isspace c.
Proof. destruct c as [[] [] [] [] [] [] [] []]; reflexivity. Qed.

Lemma lower_lstrip (s : string) : PyStr.lower (PyStr.lstrip s) = PyStr.lstrip (PyStr.lower s).
Proof.
  induction s as [|c s IH]; [done|].
  cbn [PyStr.lstrip PyStr.lower]. rewrite isspace_lower_char.
  destruct (PyStr.isspace c); [exact IH|done].
Qed.

Lemma lower_rstrip (s : string) : PyStr.lower (PyStr.rstrip s) = PyStr.rstrip (PyStr.lower s).
Proof.
  induction s as [|c s IH]; [done|].
  cbn [PyStr.rstrip PyStr.lower]. rewrite <- IH, isspace_lower_char.
  destruct (PyStr.rstrip s); cbn [PyStr.lower]; [|done].
  by destruct (PyStr.isspace c).
Qed.

Lemma lower_strip (s : string) : PyStr.lower (PyStr.strip s) = PyStr.strip (PyStr.lower s).
Proof. unfold PyStr.strip. by rewrite lower_rstrip, lower_lstrip. Qed.

Lemma lstrip_all_space (s : string) : all_space s = true → PyStr.lstrip s = EmptyString.
Proof.
  induction s as [|c s IH]; [done|]. cbn [all_space PyStr.lstrip].
  destruct (PyStr.isspace c); [exact IH|done].
Qed.

Lemma rstrip_all_space (s : string) : all_space s = true → PyStr.rstrip s = EmptyString.
Proof.
  induction s as [|c s IH]; [done|]. cbn [all_space PyStr.rstrip].
  destruct (PyStr.isspace c); [|done]. intros H. by rewrite (IH H).
Qed.

Lemma lstrip_app_space (pre s : string) :
  all_space pre = true → PyStr.lstrip (String.append pre s) = PyStr.lstrip s.
Proof.
  induction pre as [|c pre IH]; [done|].
  rewrite append_cons. cbn [all_space PyStr.lstrip].
  destruct (PyStr.isspace c); [exact IH|done].
Qed.

Lemma rstrip_app_space (s post : string) :
  all_space post = true → PyStr.rstrip (String.append s post) = PyStr.rstrip s.
Proof.
  intros Hpost. induction s as [|c s IH].
  - by apply rstrip_all_space.
  - rewrite append_cons. cbn [PyStr.rstrip]. by rewrite IH.
Qed.

Lemma lstrip_app (s post : string) :
  PyStr.lstrip (String.append s post)
  = if all_space s then PyStr.lstrip post else String.append (PyStr.lstrip s) post.
Proof.
  induction s as [|c s IH]; [done|].
  rewrite append_cons. cbn [all_space PyStr.lstrip].
  destruct (PyStr.isspace c); [exact IH|]. by rewrite append_cons.
Qed.

Lemma strip_padding (pre r post : string) :
  all_space pre = true → all_space post = true →
  PyStr.strip (String.append pre (String.append r post)) = PyStr.strip r.
Proof.
  intros Hpre Hpost. unfold PyStr.strip.
  rewrite (lstrip_app_space _ _ Hpre), lstrip_app.
  destruct (all_space r) eqn:Hr.
  - by rewrite (lstrip_all_space _ Hpost), (lstrip_all_space _ Hr).
  - by apply rstrip_app_space.
Qed.

(** X1. The label [route] reads off a reply does not depend on the case of
    its letters nor on whitespace around it. *)
Theorem classify_normalizes (a b pre post : string) :
  (PyStr.lower a = PyStr.lower b → Supervisor.classify a = Supervisor.classify b) ∧
  (all_space pre = true → all_space post = true →
   Supervisor.classify (String.append pre (String.append a post)) = Supervisor.classify a).
Proof.
  split.
  - intros Hab. unfold Supervisor.classify. by rewrite !lower_strip, Hab.
  - intros Hpre Hpost. unfold Supervisor.classify. by rewrite strip_padding.
Qed.

Lemma classify_normalizes_witness :
  PyStr.lower "Reviewer" = PyStr.lower "REVIEWER" ∧
  all_space "  " = true ∧ all_space Program.nl = true ∧
  Supervisor.classify "Reviewer" = Supervisor.classify "REVIEWER" ∧
  Supervisor.classify (String.append "  " (String.append "Reviewer" Program.nl))
  = Supervisor.classify "Reviewer".
Proof.
  split; [reflexivity|]. split; [reflexivity|]. split; [reflexivity|]. split.
  - exact (proj1 (classify_normalizes "Reviewer" "REVIEWER" "  " Program.nl) eq_refl).
  - exact (proj2 (classify_normalizes "Reviewer" "REVIEWER" "  " Program.nl) eq_refl eq_refl).
Defined.

(** X2. A reply that is, up to case and surrounding whitespace, exactly one
    of the four names is classified as that name, and classifying a label
    again gives the same label: no name is mistaken for another. *)
Theorem classify_exact (reply : string) :
  Supervisor.classify (Supervisor.classify reply) = Supervisor.classify reply ∧
  (∀ label, label ∈ ["finish"; "researcher"; "writer"; "reviewer"] →
     PyStr.lower (PyStr.strip reply) = label → Supervisor.classify reply = label).
Proof.
  split.
  - pose proof (classify_range reply) as Hrange.
    rewrite !elem_of_cons, elem_of_nil in Hrange.
    destruct Hrange as [-> | [-> | [-> | [-> | []]]]]; reflexivity.
  - intros label Hlabel Hreply. unfold Supervisor.classify. rewrite Hreply.
    rewrite !elem_of_cons, elem_of_nil in Hlabel.
    destruct Hlabel as [-> | [-> | [-> | [-> | []]]]]; reflexivity.
Qed.

Lemma classify_exact_witness :
  let reply := String.append " Writer" Program.nl in
  "writer" ∈ ["finish"; "researcher"; "writer"; "reviewer"] ∧
  PyStr.lower (PyStr.strip reply) = "writer" ∧
  Supervisor.classify reply = "writer".
Proof.
  intros reply.
  assert ("writer" ∈ ["finish"; "researcher"; "writer"; "reviewer"]) as Hin.
  { rewrite !elem_of_cons. auto. }
  split; [exact Hin|]. split; [reflexivity|].
  exact (proj2 (classify_exact reply) "writer" Hin eq_refl).
Defined.

(** X3. [route] keeps to its return annotation: when the model call fails
    the failure is handed on unchanged, and otherwise the result is one of
    researcher, writer, reviewer, finish. *)
Theorem route_annotation {World : Type} llm_invoke self msgs (w : World) :
  ∃ w',
    (∃ f,
       llm_invoke (Supervisor.llm self)
         (inl (SystemMessage (Supervisor.system_prompt self)) :: map inl msgs) w
       = (w', inl f) ∧
       Supervisor.route llm_invoke self msgs w = (w', inl f)) ∨
    (∃ label,
       Supervisor.route llm_invoke self msgs w = (w', inr label) ∧
       label ∈ ["researcher"; "writer"; "reviewer"; "finish"]).
Proof.
  destruct (llm_invoke (Supervisor.llm self)
              (inl (SystemMessage (Supervisor.system_prompt self)) :: map inl msgs) w)
    as [w' [f|response]] eqn:Hcall; exists w'.
  - left. exists f. split; [done|]. by apply route_fails.
  - right. exists (Supervisor.classify (content response)).
    split; [by apply route_eq|].
    pose proof (classify_range (content response)) as Hrange.
    rewrite !elem_of_cons, elem_of_nil in *. tauto.
Qed.

(** ** The handoff router, completely *)

(** X4. [route_next] keeps to its return annotation, and it names a node
    exactly when the task-complete field is unset or false and the
    next-agent field holds that node's name as a string; in every other
    state it returns [END]. *)
Theorem route_next_iff (state : State) (target : NodeId) :
  Handoff.route_next state ∈ ["technical"; "creative"; "data"; END] ∧
  (target ≠ END →
   (Handoff.route_next state = target ↔
    truthy (state_get state "task_complete" (VBool false)) = false ∧
    fields state !! "next_agent" = Some (VStr target) ∧
    target ∈ ["technical"; "creative"; "data"])).
Proof.
  split; [apply route_next_range|]. intros Hend.
  unfold Handoff.route_next, state_get.
  destruct (truthy _) eqn:Hdone.
  { split; [intros <-; done|intros [? _]; done]. }
  destruct (py_in _ _) eqn:Hin.
  - apply py_in_handoff_targets in Hin.
    destruct (fields state !! "next_agent") as [v|] eqn:Hfield.
    + rewrite !elem_of_cons, elem_of_nil.
      destruct Hin as [-> | [-> | ->]]; simpl;
        (split; [intros <-; tauto|intros (_ & ? & _); by simplify_eq]).
    + destruct Hin as [? | [? | ?]]; discriminate.
  - split; [intros <-; done|]. intros (_ & Hfield & Htarget).
    rewrite Hfield in Hin.
    assert (py_in (VStr target) [VStr "technical"; VStr "creative"; VStr "data"] = true);
      [|congruence].
    apply py_in_handoff_targets. rewrite !elem_of_cons, elem_of_nil in Htarget.
    destruct Htarget as [-> | [-> | [-> | []]]]; auto.
Qed.

Lemma route_next_iff_witness :
  let state := {| messages := []; fields := {["next_agent" := VStr "data"]} |} in
  "data" ≠ END ∧ Handoff.route_next state = "data" ∧
  truthy (state_get state "task_complete" (VBool false)) = false ∧
  fields state !! "next_agent" = Some (VStr "data").
Proof.
  intros state.
  assert ("data" ≠ END) as Hne by done.
  split; [exact Hne|]. split; [reflexivity|].
  destruct (proj1 (proj2 (route_next_iff state "data") Hne) eq_refl) as (Hopen & Hfield & _).
  split; [exact Hopen|exact Hfield].
Defined.

(** ** The specialists' [process] *)

(** X5. [process] never reads the conversation: called with two states
    that differ only in their messages it makes the same model call and
    returns the same result.  It hands a model failure on unchanged, and
    otherwise returns the reply as its only message and sets no control
    field. *)
Theorem process_reply {World : Type} llm_invoke self (s1 s2 : State) (w : World) :
  (fields s1 = fields s2 →
   Supervisor.process llm_invoke self s1 w = Supervisor.process llm_invoke self s2 w) ∧
  (∃ w',
     (∃ f,
        llm_invoke (Supervisor.llm self)
          (inl (SystemMessage (Supervisor.system_prompt self)) :: map inr (keys s1)) w
        = (w', inl f) ∧
        Supervisor.process llm_invoke self s1 w = (w', inl f)) ∨
     (∃ response,
        llm_invoke (Supervisor.llm self)
          (inl (SystemMessage (Supervisor.system_prompt self)) :: map inr (keys s1)) w
        = (w', inr response) ∧
        Supervisor.process llm_invoke self s1 w
        = (w', inr {| u_messages := [response]; u_fields := ∅ |}))).
Proof.
  split.
  - intros Hfields. unfold Supervisor.process, keys. by rewrite Hfields.
  - unfold Supervisor.process, bind, ret.
    destruct (llm_invoke _ _ w) as [w' [f|response]]; exists w'; [left|right]; eauto.
Qed.

Lemma process_reply_witness :
  let s1 := Scripted.initial in
  let s2 := {| messages := [HumanMessage "Another task"; AIMessage "Some notes"];
               fields := ∅ |} in
  fields s1 = fields s2 ∧
  Supervisor.process Scripted.llm_invoke Supervisor.researcher s1 ["reply"]
  = Supervisor.process Scripted.llm_invoke Supervisor.researcher s2 ["reply"].
Proof.
  intros s1 s2. split; [reflexivity|].
  exact (proj1 (process_reply Scripted.llm_invoke Supervisor.researcher s1 s2 ["reply"])
           eq_refl).
Defined.

(** ** The shape of a supervisor run *)

Lemma specialist_targets_valid {World : Type}
    (llm_invoke : Supervisor.ChatOpenAI → list (Message + string) → Collab World Message)
    (target : NodeId) :
  is_specialist target ∨ target = END →
  valid (Supervisor.graph llm_invoke) target = true.
Proof. intros [[-> | [-> | ->]] | ->]; reflexivity. Qed.

Lemma specialist_registered {World : Type}
    (llm_invoke : Supervisor.ChatOpenAI → list (Message + string) → Collab World Message)
    (current : NodeId) :
  is_specialist current →
  current ≠ END ∧
  alternates false [current] = true ∧
  (∀ rest, alternates true rest = true → alternates false (current :: rest) = true) ∧
  ∃ self, assoc current (registry (Supervisor.graph llm_invoke))
          = Some (Supervisor.process llm_invoke self).
Proof.
  intros [-> | [-> | ->]]; (split; [done|]); (split; [done|]);
    (split; [intros rest Hrest; cbn; exact Hrest|]); eexists; reflexivity.
Qed.

(** Along a run the coordinator and the specialists take turns, and the run
    ends at [END], at the step bound or with a collaborator failure. *)
Lemma loop_alternates {World : Type}
    (llm_invoke : Supervisor.ChatOpenAI → list (Message + string) → Collab World Message)
    (maxSteps : nat) :
  ∀ fuel (coordinator : bool) current state n (w w' : World) r,
    (if coordinator then current = "supervisor"
     else is_specialist current ∨ current = END) →
    loop (Supervisor.graph llm_invoke) maxSteps fuel current state n w = Some (w', r) →
    alternates coordinator (executed r) = true ∧
    (finished r ∨ raised ExecutionLimitExceeded r ∨ ∃ f, raised (CollaboratorFailure f) r).
Proof.
  unfold finished, raised.
  induction fuel as [|fuel IH]; intros coordinator current state n w w' r Hcur Hrun; [done|].
  rewrite loop_unfold in Hrun.
  destruct coordinator.
  - subst current. change (String.eqb "supervisor" END) with false in Hrun.
    destruct (n =? maxSteps); [simplify_eq; simpl; eauto|].
    change (assoc "supervisor" (registry (Supervisor.graph llm_invoke)))
      with (Some (@Supervisor.supervisor_node World)) in Hrun.
    cbv beta iota zeta delta [Supervisor.supervisor_node ret] in Hrun.
    rewrite resolve_supervisor in Hrun.
    destruct (Supervisor.supervisor_router llm_invoke _ w) as [w1 [f|next]] eqn:Hroute.
    { simplify_eq. simpl. eauto. }
    pose proof (supervisor_router_range _ _ _ _ _ Hroute) as Hnext.
    rewrite (specialist_targets_valid llm_invoke next Hnext) in Hrun.
    destruct (loop _ maxSteps fuel next _ _ w1) as [[w3 r0]|] eqn:Hrec; [|done].
    simplify_eq. destruct (IH false _ _ _ _ _ _ Hnext Hrec) as [Halt Hend].
    simpl. by rewrite Halt.
  - destruct Hcur as [Hspec | ->].
    2:{ change (String.eqb END END) with true in Hrun. cbv iota in Hrun.
        simplify_eq. simpl. eauto. }
    destruct (specialist_registered llm_invoke current Hspec)
      as (Hend & Hone & Hcons & self & Hself).
    apply String.eqb_neq in Hend. rewrite Hend in Hrun.
    destruct (n =? maxSteps); [simplify_eq; simpl; eauto|].
    rewrite Hself in Hrun.
    destruct (Supervisor.process llm_invoke self state w) as [w1 [f|update]].
    { simplify_eq. split; [exact Hone|]. simpl. eauto. }
    cbv zeta in Hrun. rewrite (resolve_specialist llm_invoke current _ _ Hspec) in Hrun.
    change (valid (Supervisor.graph llm_invoke) "supervisor") with true in Hrun.
    destruct (loop _ maxSteps fuel "supervisor" _ _ w1) as [[w3 r0]|] eqn:Hrec; [|done].
    simplify_eq. destruct (IH true _ _ _ _ _ _ eq_refl Hrec) as [Halt Hfin].
    split; [by apply Hcons|exact Hfin].
Qed.

Lemma alternates_specialists (coordinator : bool) (ids : list NodeId) :
  alternates coordinator ids = true →
  2 * length (specialists ids) ≤ length ids + (if coordinator then 0 else 1).
Proof.
  revert coordinator. unfold specialists.
  induction ids as [|id rest IH]; intros coordinator; [simpl; lia|].
  cbn [alternates]. rewrite andb_true_iff. intros [Hid Hrest].
  apply IH in Hrest. destruct coordinator.
  - apply String.eqb_eq in Hid as ->.
    rewrite filter_cons_False by (intros H; by apply H).
    cbn [length negb] in *.
    assert (∀ a b, 2 * a ≤ b + 1 → 2 * a ≤ S b + 0) as Harith by lia.
    apply Harith. exact Hrest.
  - rewrite filter_cons_True.
    + cbn [length negb] in *.
      assert (∀ a b, 2 * a ≤ b + 0 → 2 * S a ≤ S b + 1) as Harith by lia.
      apply Harith. exact Hrest.
    + intros ->. discriminate.
Qed.

(** X6. In every run of the supervisor graph the executed nodes alternate,
    coordinator first and a specialist after each coordinator turn, so at
    most half of the allowed steps are specialist executions. *)
Theorem supervisor_takes_turns {World : Type} llm_invoke initial maxSteps (w : World) :
  ∃ w' r,
    invoke (Supervisor.graph llm_invoke) initial maxSteps w = Some (w', r) ∧
    alternates true (executed r) = true ∧
    2 * length (specialists (executed r)) ≤ maxSteps.
Proof.
  destruct (invoke_total (Supervisor.graph llm_invoke) initial maxSteps w)
    as (w' & r & Hrun & Hlen & _).
  exists w', r. split; [exact Hrun|].
  destruct (loop_alternates llm_invoke maxSteps _ true _ _ _ _ _ _ eq_refl Hrun) as [Halt _].
  split; [exact Halt|].
  apply alternates_specialists in Halt. lia.
Qed.

(** X7. A run of the supervisor graph ends in one of three ways only: at
    [END], with [ExecutionLimitExceeded], or with the failure of a model
    call; the graph [create_supervisor_swarm] builds never produces a
    configuration or routing error. *)
Theorem supervisor_run_ends {World : Type} llm_invoke initial maxSteps (w : World) :
  ∃ g w' r,
    Supervisor.create_supervisor_swarm llm_invoke = inr g ∧
    invoke g initial maxSteps w = Some (w', r) ∧
    (finished r ∨ raised ExecutionLimitExceeded r ∨ ∃ f, raised (CollaboratorFailure f) r).
Proof.
  destruct (invoke_total (Supervisor.graph llm_invoke) initial maxSteps w)
    as (w' & r & Hrun & _).
  exists (Supervisor.graph llm_invoke), w', r.
  split; [reflexivity|]. split; [exact Hrun|].
  by destruct (loop_alternates llm_invoke maxSteps _ true _ _ _ _ _ _ eq_refl Hrun).
Qed.

(** ** The shape of a handoff run *)

Lemma handoff_registered {World : Type} (triage technical creative data : Node World)
    (current : NodeId) :
  current ∈ ["triage"; "technical"; "creative"; "data"] →
  current ≠ END ∧
  ∃ process,
    assoc current (registry (Handoff.graph triage technical creative data)) = Some process ∧
    ∀ state (w : World),
      resolve (Handoff.graph triage technical creative data) current state w
      = (w, inr (Handoff.route_next state)).
Proof.
  rewrite !elem_of_cons, elem_of_nil.
  intros [-> | [-> | [-> | [-> | []]]]]; (split; [done|]); eexists; split; reflexivity.
Qed.

Lemma handoff_target_valid {World : Type} (triage technical creative data : Node World)
    (state : State) :
  valid (Handoff.graph triage technical creative data) (Handoff.route_next state) = true ∧
  (Handoff.route_next state ∈ ["triage"; "technical"; "creative"; "data"]
   ∨ Handoff.route_next state = END).
Proof.
  pose proof (route_next_range state) as Hrange.
  rewrite !elem_of_cons, elem_of_nil in *.
  destruct Hrange as [-> | [-> | [-> | [-> | []]]]]; (split; [reflexivity|]); auto 6.
Qed.

(** A handoff run that returns ends in a state the router answers [END]
    for; a run that raises does so at the step bound or with the failure of
    an agent. *)
Lemma loop_handoff {World : Type} (triage technical creative data : Node World)
    (maxSteps : nat) :
  ∀ fuel current state n (w w' : World) r,
    current ∈ ["triage"; "technical"; "creative"; "data"] ∨ current = END →
    loop (Handoff.graph triage technical creative data) maxSteps fuel current state n w
    = Some (w', r) →
    match outcome r with
    | inr final => (current = END ∧ final = state) ∨ Handoff.route_next final = END
    | inl e => e = ExecutionLimitExceeded ∨ ∃ f, e = CollaboratorFailure f
    end.
Proof.
  induction fuel as [|fuel IH]; intros current state n w w' r Hcur Hrun; [done|].
  rewrite loop_unfold in Hrun.
  destruct Hcur as [Hnode | ->].
  2:{ change (String.eqb END END) with true in Hrun. cbv iota in Hrun.
      simplify_eq. simpl. auto. }
  destruct (handoff_registered triage technical creative data current Hnode)
    as (Hend & process & Hprocess & Hresolve).
  apply String.eqb_neq in Hend. rewrite Hend in Hrun.
  destruct (n =? maxSteps); [simplify_eq; simpl; auto|].
  rewrite Hprocess in Hrun.
  destruct (process state w) as [w1 [f|update]]; [simplify_eq; simpl; eauto|].
  cbv zeta in Hrun. rewrite Hresolve in Hrun.
  destruct (handoff_target_valid triage technical creative data (merge state update))
    as [Hvalid Hnext].
  rewrite Hvalid in Hrun.
  destruct (loop _ maxSteps fuel _ _ _ w1) as [[w3 r0]|] eqn:Hrec; [|done].
  simplify_eq. simpl. pose proof (IH _ _ _ _ _ _ Hnext Hrec) as Hout.
  destruct (outcome r0) as [e|final]; [exact Hout|].
  destruct Hout as [[Hstop ->] | Hstop]; right; [exact Hstop|exact Hstop].
Qed.

Lemma route_next_end (state : State) :
  Handoff.route_next state = END →
  truthy (state_get state "task_complete" (VBool false)) = true ∨
  py_in (state_get state "next_agent" (VStr "finish"))
    [VStr "technical"; VStr "creative"; VStr "data"] = false.
Proof.
  unfold Handoff.route_next.
  destruct (truthy _); [auto|].
  destruct (py_in _ _) eqn:Hin; [|auto].
  apply py_in_handoff_targets in Hin as [-> | [-> | ->]]; discriminate.
Qed.

(** X8. A run of the graph [create_handoff_swarm] builds never produces a
    configuration or routing error: it raises only at the step bound or
    with an agent's own failure.  When it returns, the task-complete field
    of the final state is set or its next-agent field names none of
    technical, creative, data: nothing else ends a handoff run. *)
Theorem handoff_run_ends {World : Type} (triage technical creative data : Node World)
    initial maxSteps (w : World) :
  ∃ g w' r,
    Handoff.create_handoff_swarm triage technical creative data = inr g ∧
    invoke g initial maxSteps w = Some (w', r) ∧
    match outcome r with
    | inr final =>
        Handoff.route_next final = END ∧
        (truthy (state_get final "task_complete" (VBool false)) = true ∨
         py_in (state_get final "next_agent" (VStr "finish"))
           [VStr "technical"; VStr "creative"; VStr "data"] = false)
    | inl e => e = ExecutionLimitExceeded ∨ ∃ f, e = CollaboratorFailure f
    end.
Proof.
  destruct (invoke_total (Handoff.graph triage technical creative data) initial maxSteps w)
    as (w' & r & Hrun & _).
  exists (Handoff.graph triage technical creative data), w', r.
  split; [reflexivity|]. split; [exact Hrun|].
  assert ("triage" ∈ ["triage"; "technical"; "creative"; "data"]) as Hstart
    by (rewrite !elem_of_cons; auto).
  pose proof (loop_handoff triage technical creative data maxSteps _ _ _ _ _ _ _
                (or_introl Hstart) Hrun) as Hout.
  destruct (outcome r) as [e|final]; [exact Hout|].
  destruct Hout as [[Hstop _] | Hstop]; [discriminate|].
  split; [exact Hstop|by apply route_next_end].
Qed.

(** ** A handoff run that no agent ends *)

Lemma loop_handoff_restless {World : Type} (triage technical creative data : Node World)
    (maxSteps : nat) :
  (∀ id process state (w : World),
     assoc id (registry (Handoff.graph triage technical creative data)) = Some process →
     ∃ w' update, process state w = (w', inr update) ∧
                  Handoff.route_next (merge state update) ≠ END) →
  ∀ fuel current state n (w : World),
    current ∈ ["triage"; "technical"; "creative"; "data"] →
    n ≤ maxSteps → maxSteps - n < fuel →
    ∃ w' r,
      loop (Handoff.graph triage technical creative data) maxSteps fuel current state n w
      = Some (w', r) ∧
      raised ExecutionLimitExceeded r ∧ steps r = maxSteps ∧
      length (executed r) = maxSteps - n.
Proof.
  intros Hagents.
  induction fuel as [|fuel IH]; intros current state n w Hcur Hn Hfuel; [lia|].
  rewrite loop_unfold.
  destruct (handoff_registered triage technical creative data current Hcur)
    as (Hend & process & Hprocess & Hresolve).
  apply String.eqb_neq in Hend. rewrite Hend.
  destruct (Nat.eqb_spec n maxSteps) as [->|Hne].
  { do 2 eexists. split; [done|]. by rewrite Nat.sub_diag. }
  rewrite Hprocess.
  destruct (Hagents current process state w Hprocess) as (w1 & update & -> & Hnext).
  cbv zeta. rewrite Hresolve.
  destruct (handoff_target_valid triage technical creative data (merge state update))
    as [-> [Hin | Hstop]]; [|done].
  destruct (IH _ (merge state update) (S n) w1 Hin) as (w3 & r & -> & Hr & Hs & He);
    [lia..|].
  do 2 eexists. split; [done|]. simpl. rewrite He.
  repeat split; [exact Hr|exact Hs|lia].
Qed.

(** X10. The handoff graph has no end of its own: when no agent fails and
    no agent's update leaves a state for which [route_next] answers [END],
    the run executes exactly [maxSteps] nodes and stops with
    [ExecutionLimitExceeded]. *)
Theorem handoff_never_ending {World : Type} (triage technical creative data : Node World)
    initial maxSteps (w : World) :
  (∀ id process state (w0 : World),
     assoc id (registry (Handoff.graph triage technical creative data)) = Some process →
     ∃ w' update, process state w0 = (w', inr update) ∧
                  Handoff.route_next (merge state update) ≠ END) →
  ∃ w' r,
    invoke (Handoff.graph triage technical creative data) initial maxSteps w = Some (w', r) ∧
    raised ExecutionLimitExceeded r ∧ steps r = maxSteps ∧
    length (executed r) = maxSteps.
Proof.
  intros Hagents.
  destruct (loop_handoff_restless triage technical creative data maxSteps Hagents
              (S maxSteps) "triage" initial 0 w) as (w' & r & Hrun & Hr & Hs & He);
    [rewrite !elem_of_cons; auto|lia..|].
  exists w', r. rewrite Nat.sub_0_r in He. done.
Qed.

Lemma insists_restless id process state (w0 : Scripted.World) :
  assoc id (registry (Handoff.graph (insists "technical") (insists "creative")
                        (insists "data") (insists "technical"))) = Some process →
  ∃ w' update, process state w0 = (w', inr update) ∧
               Handoff.route_next (merge state update) ≠ END.
Proof.
  cbn [assoc registry Handoff.graph].
  repeat (destruct (String.eqb _ id);
          [intros ?; simplify_eq; do 2 eexists; split; [reflexivity|];
           unfold Handoff.route_next, state_get; cbn [merge fields u_fields insists];
           rewrite !lookup_union_l' by (by eexists); done|]).
  done.
Qed.

Lemma handoff_never_ending_witness :
  ∃ w' r,
    invoke (Handoff.graph (insists "technical") (insists "creative")
              (insists "data") (insists "technical")) Scripted.initial 25 []
    = Some (w', r) ∧
    raised ExecutionLimitExceeded r ∧ steps r = 25 ∧ length (executed r) = 25.
Proof.
  exact (handoff_never_ending (insists "technical") (insists "creative")
           (insists "data") (insists "technical") Scripted.initial 25 []
           insists_restless).
Defined.

(** * Bounded execution, in full *)

Lemma resolve_cases {World : Type} (g : Graph World) current state (w w' : World) e :
  resolve g current state w = (w', inl e) →
  (e = ConfigurationError ∧
   assoc current (static g) = None ∧ assoc current (conditional g) = None) ∨
  (∃ f router, e = CollaboratorFailure f ∧
     assoc current (conditional g) = Some router ∧ router state w = (w', inl f)).
Proof.
  unfold resolve. intros H.
  destruct (assoc current (static g)); [done|].
  destruct (assoc current (conditional g)) as [router|] eqn:Hcond; [|simplify_eq; auto].
  destruct (router state w) as [w1 [f|next]] eqn:Hrouter; simplify_eq.
  right. by exists f, router.
Qed.

(** Each way a run can end has its cause in the graph or in the
    collaborator. *)
Lemma loop_explained {World : Type} (g : Graph World) (maxSteps : nat) :
  ∀ fuel current state k (w w' : World) r,
    k ≤ maxSteps →
    loop g maxSteps fuel current state k w = Some (w', r) →
    match outcome r with
    | inr final => steps r = k + length (executed r)
    | inl ExecutionLimitExceeded =>
        steps r = maxSteps ∧ length (executed r) = maxSteps - k
    | inl (RoutingError target) => valid g target = false
    | inl ConfigurationError =>
        ∃ id, id ≠ END ∧
          (assoc id (registry g) = None ∨
           (assoc id (static g) = None ∧ assoc id (conditional g) = None))
    | inl (CollaboratorFailure f) =>
        ∃ id state0 (w0 w1 : World),
          (∃ process, assoc id (registry g) = Some process ∧
                      process state0 w0 = (w1, inl f)) ∨
          (∃ router, assoc id (conditional g) = Some router ∧
                     router state0 w0 = (w1, inl f))
    end.
Proof.
  induction fuel as [|fuel IH]; intros current state k w w' r Hk Hrun; [done|].
  rewrite loop_unfold in Hrun.
  destruct (String.eqb_spec current END) as [->|Hend].
  { simplify_eq. simpl. lia. }
  destruct (Nat.eqb_spec k maxSteps) as [->|Hne].
  { simplify_eq. simpl. split; [done|lia]. }
  destruct (assoc current (registry g)) as [process|] eqn:Hnode.
  2:{ simplify_eq. simpl. exists current. auto. }
  destruct (process state w) as [w1 [f|update]] eqn:Hprocess.
  { simplify_eq. simpl. exists current, state, w, w'. left. by exists process. }
  cbv zeta in Hrun.
  destruct (resolve g current (merge state update) w1) as [w2 [e|next]] eqn:Hnext.
  { simplify_eq. simpl.
    destruct (resolve_cases _ _ _ _ _ _ Hnext)
      as [(-> & Hstatic & Hcond) | (f & router & -> & Hcond & Hrouter)].
    - exists current. auto.
    - exists current, (merge state update), w1, w'. right. by exists router. }
  destruct (valid g next) eqn:Hvalid; [|simplify_eq; simpl; exact Hvalid].
  destruct (loop g maxSteps fuel next _ _ w2) as [[w3 r0]|] eqn:Hrec; [|done].
  simplify_eq. apply IH in Hrec; [|lia]. simpl.
  destruct (outcome r0) as [[| | |]|]; try exact Hrec; simpl; lia.
Qed.

Lemma invoke_explained {World : Type} (g : Graph World) initial maxSteps (w : World) :
  ∃ w' r, invoke g initial maxSteps w = Some (w', r) ∧
    length (executed r) ≤ maxSteps ∧ steps r ≤ maxSteps ∧ explained g maxSteps r.
Proof.
  destruct (invoke_total g initial maxSteps w) as (w' & r & Hrun & He & Hs).
  exists w', r. split; [exact Hrun|]. split; [exact He|]. split; [exact Hs|].
  pose proof (loop_explained g maxSteps _ _ _ _ _ _ _ (Nat.le_0_l maxSteps) Hrun) as Hwhy.
  destruct (loop_history g maxSteps _ _ _ _ _ _ _ Hrun) as (_ & _ & Hfinal).
  unfold explained. destruct (outcome r) as [[| | |]|final]; try exact Hwhy.
  - destruct Hwhy as [? ?]. split; [done|lia].
  - split; [by apply Hfinal|exact Hwhy].
Qed.

(** Once the self-routing node is entered, nothing else is executed and the
    run stops at the step limit. *)
Lemma loop_at_self_routing {World : Type} (g : Graph World) (maxSteps : nat) (n : NodeId) :
  self_routing g n →
  ∀ fuel k state (w w' : World) r,
    k ≤ maxSteps →
    loop g maxSteps fuel n state k w = Some (w', r) →
    raised ExecutionLimitExceeded r ∧ steps r = maxSteps ∧
    executed r = replicate (maxSteps - k) n.
Proof.
  intros (Hend & Hstatic & process & router & Hnode & Hcond & Hproc & Hback).
  assert (valid g n = true) as Hvalid.
  { unfold valid. by rewrite (assoc_registered _ _ _ Hnode). }
  apply String.eqb_neq in Hend.
  induction fuel as [|fuel IH]; intros k state w w' r Hk Hrun; [done|].
  rewrite loop_unfold, Hend in Hrun.
  destruct (Nat.eqb_spec k maxSteps) as [->|Hne].
  { simplify_eq. by rewrite Nat.sub_diag. }
  rewrite Hnode in Hrun.
  destruct (Hproc state w) as (w1 & update & Hupdate). rewrite Hupdate in Hrun.
  cbv zeta in Hrun. unfold resolve in Hrun. rewrite Hstatic, Hcond in Hrun.
  destruct (Hback (merge state update) w1) as (w2 & Hrouter).
  rewrite Hrouter, Hvalid in Hrun.
  destruct (loop g maxSteps fuel n _ _ w2) as [[w3 r0]|] eqn:Hrec; [|done].
  simplify_eq. destruct (IH (S k) _ _ _ _ ltac:(lia) Hrec) as (Hr & Hs & He).
  simpl. rewrite He. repeat split; [exact Hr|exact Hs|].
  replace (maxSteps - k) with (S (maxSteps - S k)) by lia. done.
Qed.

(** A run that enters the self-routing node, at the start or later, has
    executed other nodes before it and only that node from then on. *)
Lemma loop_reaches_self_routing {World : Type} (g : Graph World) (maxSteps : nat)
    (n : NodeId) :
  self_routing g n →
  ∀ fuel current k state (w w' : World) r,
    k ≤ maxSteps →
    loop g maxSteps fuel current state k w = Some (w', r) →
    current = n ∨ n ∈ executed r →
    raised ExecutionLimitExceeded r ∧ steps r = maxSteps ∧
    ∃ before : list NodeId, (n ∉ before) ∧
      executed r = (before ++ replicate (maxSteps - k - length before) n)%list.
Proof.
  intros Hself.
  induction fuel as [|fuel IH]; intros current k state w w' r Hk Hrun Hreach; [done|].
  destruct (String.eqb_spec current n) as [->|Hother].
  { destruct (loop_at_self_routing g maxSteps n Hself _ _ _ _ _ _ Hk Hrun)
      as (Hr & Hs & He).
    split; [exact Hr|]. split; [exact Hs|]. exists [].
    split; [apply not_elem_of_nil|]. simpl. by rewrite Nat.sub_0_r. }
  destruct Hreach as [?|Hin]; [done|].
  rewrite loop_unfold in Hrun.
  destruct (String.eqb current END); [simplify_eq; by apply elem_of_nil in Hin|].
  destruct (Nat.eqb_spec k maxSteps) as [->|Hne];
    [simplify_eq; by apply elem_of_nil in Hin|].
  destruct (assoc current (registry g)) as [process|];
    [|simplify_eq; by apply elem_of_nil in Hin].
  assert (n ∉ [current]) as Hsingle.
  { rewrite elem_of_cons, elem_of_nil. intros [->|[]]. done. }
  destruct (process state w) as [w1 [f|update]]; [by simplify_eq|].
  cbv zeta in Hrun.
  destruct (resolve g current (merge state update) w1) as [w2 [e|next]];
    [by simplify_eq|].
  destruct (valid g next); [|by simplify_eq].
  destruct (loop g maxSteps fuel next _ _ w2) as [[w3 r0]|] eqn:Hrec; [|done].
  simplify_eq. simpl in Hin. apply elem_of_cons in Hin as [->|Hin]; [done|].
  destruct (IH next (S k) _ _ _ _ ltac:(lia) Hrec (or_intror Hin))
    as (Hr & Hs & before & Hbefore & He).
  split; [exact Hr|]. split; [exact Hs|].
  exists (current :: before). split.
  - rewrite elem_of_cons. intros [->|?]; done.
  - cbn [length app executed ran]. rewrite He.
    replace (maxSteps - k - S (length before)) with (maxSteps - S k - length before)
      by lia.
    done.
Qed.

(** ** The supervisor graph under a coordinator that never finishes *)

Lemma route_label {World : Type} llm_invoke self msgs (w w' : World) label :
  Supervisor.route llm_invoke self msgs w = (w', inr label) →
  label ∈ ["finish"; "researcher"; "writer"; "reviewer"].
Proof.
  unfold Supervisor.route, bind, ret.
  destruct (llm_invoke _ _ w) as [w1 [f|response]]; [done|].
  intros ?; simplify_eq. apply classify_range.
Qed.

Lemma specialist_agent {World : Type}
    (llm_invoke : Supervisor.ChatOpenAI → list (Message + string) → Collab World Message)
    (current : NodeId) :
  is_specialist current →
  ∃ self,
    self ∈ [Supervisor.researcher; Supervisor.writer; Supervisor.reviewer] ∧
    assoc current (registry (Supervisor.graph llm_invoke))
    = Some (Supervisor.process llm_invoke self).
Proof.
  intros [-> | [-> | ->]]; eexists; (split; [|reflexivity]);
    rewrite !elem_of_cons; auto.
Qed.

Lemma supervisor_cycle {World : Type}
    (llm_invoke : Supervisor.ChatOpenAI → list (Message + string) → Collab World Message) :
  coordinator_never_finishes llm_invoke → specialists_answer llm_invoke →
  trapped (Supervisor.graph llm_invoke) (λ id, is_specialist id ∨ id = "supervisor").
Proof.
  intros Hcoord Hspecs current Hcur. split.
  { destruct Hcur as [[-> | [-> | ->]] | ->]; done. }
  destruct Hcur as [Hspec | ->].
  - destruct (specialist_agent llm_invoke current Hspec) as (self & Hin & Hself).
    eexists. split; [exact Hself|]. split.
    + intros state w. by apply Hspecs.
    + intros state w. rewrite (resolve_specialist _ _ _ _ Hspec). eauto.
  - exists Supervisor.supervisor_node. split; [reflexivity|]. split.
    + intros state w. by do 2 eexists.
    + intros state w. rewrite resolve_supervisor.
      destruct (Hcoord (messages state) w) as (w' & label & Hroute & Hlabel).
      pose proof (route_label _ _ _ _ _ _ Hroute) as Hrange.
      unfold Supervisor.supervisor_router, bind. rewrite Hroute.
      apply String.eqb_neq in Hlabel. rewrite Hlabel.
      exists w', label. split; [done|]. left.
      apply String.eqb_neq in Hlabel.
      rewrite !elem_of_cons, elem_of_nil in Hrange. unfold is_specialist.
      destruct Hrange as [? | [? | [? | [? | []]]]]; auto. done.
Qed.


Lemma detour_self_routing : self_routing detour "spin".
Proof.
  repeat split; try done.
  exists (Scripted.closer "again"), (λ _, ret "spin").
  repeat split; intros; by do 2 eexists.
Qed.

Lemma diligent_coordinator :
  coordinator_never_finishes diligent ∧ specialists_answer diligent.
Proof.
  split.
  - intros msgs w. exists w, "researcher". by split.
  - intros self state w Hself. rewrite !elem_of_cons, elem_of_nil in Hself.
    destruct Hself as [-> | [-> | [-> | []]]]; by do 2 eexists.
Qed.


(** * Classification is case-insensitive substring search *)

Lemma lower_char_code (c : ascii) :
  nat_of_ascii (PyStr.lower_char c)
  = if (65 <=? nat_of_ascii c) && (nat_of_ascii c <=? 90)
    then nat_of_ascii c + 32 else nat_of_ascii c.
Proof.
  unfold PyStr.lower_char.
  destruct ((65 <=? nat_of_ascii c) && (nat_of_ascii c <=? 90)) eqn:Hupper; [|done].
  apply andb_true_iff in Hupper as [_ Hle]. apply Nat.leb_le in Hle.
  apply nat_ascii_embedding. lia.
Qed.

Lemma ascii_code_inj (c d : ascii) : nat_of_ascii c = nat_of_ascii d → c = d.
Proof.
  intros H. rewrite <- (ascii_nat_embedding c), <- (ascii_nat_embedding d). by rewrite H.
Qed.

Lemma same_letter_lower (c d : ascii) :
  same_letter c d ↔ PyStr.lower_char c = PyStr.lower_char d.
Proof.
  unfold same_letter. split.
  - intros [-> | [[Hc Hd] | [Hd Hc]]]; [done| |];
      apply ascii_code_inj; rewrite !lower_char_code;
      repeat match goal with
             | |- context [(?a <=? ?b)] => destruct (Nat.leb_spec a b)
             end; simpl; lia.
  - intros H. apply (f_equal nat_of_ascii) in H. rewrite !lower_char_code in H.
    repeat match type of H with
           | context [(?a <=? ?b)] => destruct (Nat.leb_spec a b)
           end; simpl in H;
      first [left; apply ascii_code_inj; lia | right; left; lia | right; right; lia].
Qed.

Lemma caseless_lower (a b : string) : caseless a b ↔ PyStr.lower a = PyStr.lower b.
Proof.
  revert b. induction a as [|c a IH]; intros [|d b]; simpl; try (split; [done|discriminate]).
  - done.
  - rewrite same_letter_lower, IH. split; [intros [-> ->]; done|].
    intros H. by simplify_eq.
Qed.

Lemma lower_app (a b : string) :
  PyStr.lower (String.append a b) = String.append (PyStr.lower a) (PyStr.lower b).
Proof.
  induction a as [|c a IH]; [done|].
  rewrite !append_cons. cbn [PyStr.lower]. by rewrite append_cons, IH.
Qed.

Lemma lower_split (s x y : string) :
  PyStr.lower s = String.append x y →
  ∃ s1 s2, s = String.append s1 s2 ∧ PyStr.lower s1 = x ∧ PyStr.lower s2 = y.
Proof.
  revert s. induction x as [|c x IH]; intros s Hs.
  - by exists EmptyString, s.
  - destruct s as [|d s]; [discriminate|].
    rewrite append_cons in Hs. cbn [PyStr.lower] in Hs. simplify_eq.
    destruct (IH s) as (s1 & s2 & -> & <- & <-); [done|].
    by exists (String d s1), s2.
Qed.

(** *** Stripping does not change what a word without whitespace matches *)

Lemma lstrip_split (s : string) :
  ∃ pre, all_space pre = true ∧ s = String.append pre (PyStr.lstrip s).
Proof.
  induction s as [|c s (pre & Hpre & Hs)]; [by exists EmptyString|].
  cbn [PyStr.lstrip]. destruct (PyStr.isspace c) eqn:Hc.
  - exists (String c pre). cbn [all_space]. rewrite Hc, Hpre, append_cons.
    split; [done|]. by rewrite <- Hs.
  - by exists EmptyString.
Qed.

Lemma rstrip_split (s : string) :
  ∃ post, all_space post = true ∧ s = String.append (PyStr.rstrip s) post.
Proof.
  induction s as [|c s (post & Hpost & Hs)]; [by exists EmptyString|].
  cbn [PyStr.rstrip]. destruct (PyStr.rstrip s) as [|d t] eqn:Hr.
  - destruct (PyStr.isspace c) eqn:Hc.
    + exists (String c post). cbn [all_space]. rewrite Hc, Hpost. split; [done|].
      by rewrite Hs.
    + exists post. split; [done|]. by rewrite Hs.
  - exists post. split; [done|]. rewrite append_cons. by rewrite <- Hs.
Qed.

Lemma startswith_app_space (n s post : string) :
  no_space n = true → all_space post = true →
  PyStr.startswith n (String.append s post) = PyStr.startswith n s.
Proof.
  revert s. induction n as [|c n IH]; intros s Hn Hpost; [done|].
  cbn [no_space] in Hn. apply andb_true_iff in Hn as [Hc Hn].
  destruct s as [|a s].
  - destruct post as [|p post]; [done|].
    cbn [all_space] in Hpost. apply andb_true_iff in Hpost as [Hp _].
    change (String.append EmptyString (String p post)) with (String p post).
    cbn [PyStr.startswith]. destruct (Ascii.eqb_spec c p) as [->|]; [|done].
    by rewrite Hp in Hc.
  - rewrite append_cons. cbn [PyStr.startswith].
    destruct (Ascii.eqb c a); [by apply IH|done].
Qed.

Lemma contains_all_space (n post : string) :
  n ≠ EmptyString → no_space n = true → all_space post = true →
  PyStr.contains n post = false.
Proof.
  intros Hne Hn. destruct n as [|c n]; [done|].
  cbn [no_space] in Hn. apply andb_true_iff in Hn as [Hc _].
  induction post as [|p post IH]; intros Hpost; [done|].
  cbn [all_space] in Hpost. apply andb_true_iff in Hpost as [Hp Hpost].
  cbn [PyStr.contains PyStr.startswith].
  destruct (Ascii.eqb_spec c p) as [->|]; [by rewrite Hp in Hc|].
  by apply IH.
Qed.

Lemma contains_app_space (n s post : string) :
  n ≠ EmptyString → no_space n = true → all_space post = true →
  PyStr.contains n (String.append s post) = PyStr.contains n s.
Proof.
  intros Hne Hn Hpost. induction s as [|a s IH].
  - change (String.append EmptyString post) with post.
    rewrite (contains_all_space n post Hne Hn Hpost). by destruct n.
  - rewrite append_cons. cbn [PyStr.contains]. rewrite IH. f_equal.
    rewrite <- append_cons. by apply startswith_app_space.
Qed.

Lemma contains_space_app (n pre s : string) :
  n ≠ EmptyString → no_space n = true → all_space pre = true →
  PyStr.contains n (String.append pre s) = PyStr.contains n s.
Proof.
  intros Hne Hn. destruct n as [|c n]; [done|].
  cbn [no_space] in Hn. apply andb_true_iff in Hn as [Hc _].
  induction pre as [|p pre IH]; intros Hpre; [done|].
  cbn [all_space] in Hpre. apply andb_true_iff in Hpre as [Hp Hpre].
  rewrite append_cons. cbn [PyStr.contains PyStr.startswith].
  destruct (Ascii.eqb_spec c p) as [->|]; [by rewrite Hp in Hc|].
  by apply IH.
Qed.

Lemma contains_strip (n s : string) :
  n ≠ EmptyString → no_space n = true →
  PyStr.contains n (PyStr.strip s) = PyStr.contains n s.
Proof.
  intros Hne Hn. unfold PyStr.strip.
  destruct (lstrip_split s) as (pre & Hpre & Hs).
  destruct (rstrip_split (PyStr.lstrip s)) as (post & Hpost & Hl).
  rewrite Hs at 2. rewrite (contains_space_app _ _ _ Hne Hn Hpre).
  rewrite Hl at 2. by rewrite (contains_app_space _ _ _ Hne Hn Hpost).
Qed.

(** The test [route] makes on the stripped, lowered reply finds a
    lower-case word without whitespace exactly when the word occurs in the
    reply itself, in any case. *)
Lemma occurs_contains (word text : string) :
  word ≠ EmptyString → no_space word = true → PyStr.lower word = word →
  occurs word text ↔ PyStr.contains word (PyStr.lower (PyStr.strip text)) = true.
Proof.
  intros Hne Hspace Hlower.
  rewrite lower_strip, (contains_strip _ _ Hne Hspace), contains_spec.
  unfold occurs. split.
  - intros (before & found & after & -> & Hfound).
    apply caseless_lower in Hfound. rewrite Hlower in Hfound.
    exists (PyStr.lower before), (PyStr.lower after).
    by rewrite !lower_app, Hfound.
  - intros (a & b & Hab).
    destruct (lower_split _ _ _ Hab) as (before & rest & -> & _ & Hrest).
    destruct (lower_split _ _ _ Hrest) as (found & after & -> & Hfound & _).
    exists before, found, after. split; [done|].
    apply caseless_lower. by rewrite Hlower.
Qed.

Lemma occurs_dec (word text : string) :
  word ≠ EmptyString → no_space word = true → PyStr.lower word = word →
  ¬ occurs word text ↔ PyStr.contains word (PyStr.lower (PyStr.strip text)) = false.
Proof.
  intros Hne Hspace Hlower. rewrite (occurs_contains _ _ Hne Hspace Hlower).
  by destruct (PyStr.contains _ _).
Qed.

(** C3. [SupervisorAgent.route] classifies a reply by looking for the
    labels as substrings of the reply, whatever the case of their letters,
    in the order finish, researcher, writer, reviewer: a reply in which
    finish occurs anywhere yields finish, whatever else occurs in it;
    otherwise the first of researcher, writer, reviewer that occurs is
    returned. *)
Theorem route_priority {World : Type} llm_invoke self msgs (w w' : World) response :
  llm_invoke (Supervisor.llm self)
    (inl (SystemMessage (Supervisor.system_prompt self)) :: map inl msgs) w
    = (w', inr response) →
  ∃ label,
    Supervisor.route llm_invoke self msgs w = (w', inr label) ∧
    (occurs "finish" (content response) → label = "finish") ∧
    (¬ occurs "finish" (content response) →
     occurs "researcher" (content response) → label = "researcher") ∧
    (¬ occurs "finish" (content response) →
     ¬ occurs "researcher" (content response) →
     occurs "writer" (content response) → label = "writer") ∧
    (¬ occurs "finish" (content response) →
     ¬ occurs "researcher" (content response) →
     ¬ occurs "writer" (content response) →
     occurs "reviewer" (content response) → label = "reviewer").
Proof.
  intros H. exists (Supervisor.classify (content response)).
  split; [by apply route_eq|].
  rewrite !occurs_dec, !occurs_contains by done.
  unfold Supervisor.classify.
  repeat split; intros; repeat match goal with H : _ = _ |- _ => rewrite H end; done.
Qed.

Lemma route_priority_witness :
  let reply := "Ask the WRITER; the researcher is done." in
  Scripted.llm_invoke (Supervisor.llm Supervisor.supervisor)
    (inl (SystemMessage (Supervisor.system_prompt Supervisor.supervisor))
       :: map inl (messages Scripted.initial)) [reply]
    = ([], inr (AIMessage reply)) ∧
  ¬ occurs "finish" reply ∧ occurs "researcher" reply ∧ occurs "writer" reply ∧
  ∃ label,
    Supervisor.route Scripted.llm_invoke Supervisor.supervisor
      (messages Scripted.initial) [reply] = ([], inr label) ∧
    label = "researcher".
Proof.
  intros reply.
  assert (¬ occurs "finish" reply) as Hfinish by (by apply occurs_dec).
  assert (occurs "researcher" reply) as Hresearcher by (by apply occurs_contains).
  assert (occurs "writer" reply) as Hwriter by (by apply occurs_contains).
  split; [reflexivity|]. split; [exact Hfinish|].
  split; [exact Hresearcher|]. split; [exact Hwriter|].
  destruct (route_priority Scripted.llm_invoke Supervisor.supervisor
              (messages Scripted.initial) [reply] [] (AIMessage reply) eq_refl)
    as (label & Hroute & _ & Hsecond & _).
  exists label. split; [exact Hroute|]. by apply Hsecond.
Defined.

(** * Scenario B, whatever the pass-through adds *)

Lemma scenario_B_unfolds {World : Type} llm_invoke initial maxSteps (w0 w3 : World) :
  scenario_B llm_invoke initial w0 w3 →
  ∃ w1 w2 update reply,
    Supervisor.process llm_invoke Supervisor.researcher (pass_through initial) w1
    = (w2, inr update) ∧
    u_messages update = [reply] ∧
    ((maxSteps < 3 ∧
      ∃ w' r, invoke (Supervisor.graph llm_invoke) initial maxSteps w0 = Some (w', r) ∧
              raised ExecutionLimitExceeded r) ∨
     (3 ≤ maxSteps ∧
      invoke (Supervisor.graph llm_invoke) initial maxSteps w0
      = Some (w3,
              ran "supervisor" initial
                (ran "researcher" (pass_through initial)
                   (ran "supervisor" (merge (pass_through initial) update)
                      (halt (pass_through (merge (pass_through initial) update)) 3
                         (inr (pass_through (merge (pass_through initial) update))))))))).
Proof.
  intros (w1 & w2 & update & Hfirst & Hwork & Hone & Hsecond).
  destruct (u_messages update) as [|reply [|]] eqn:Hreply; try discriminate.
  exists w1, w2, update, reply. split; [exact Hwork|]. split; [exact Hreply|].
  unfold invoke. change (start (Supervisor.graph llm_invoke)) with "supervisor".
  destruct maxSteps as [|[|[|m]]].
  - left. split; [lia|]. rewrite loop_unfold. by do 2 eexists.
  - left. split; [lia|].
    rewrite (loop_at_supervisor llm_invoke 1 _ initial 0 w0 w1 "researcher")
      by (lia || exact Hfirst).
    rewrite loop_unfold. by do 2 eexists.
  - left. split; [lia|].
    rewrite (loop_at_supervisor llm_invoke 2 _ initial 0 w0 w1 "researcher")
      by (lia || exact Hfirst).
    rewrite (loop_at_researcher llm_invoke 2 _ _ 1 w1 w2 update)
      by (lia || exact Hwork).
    rewrite loop_unfold. by do 2 eexists.
  - right. split; [lia|].
    rewrite (loop_at_supervisor llm_invoke (S (S (S m))) _ initial 0 w0 w1 "researcher")
      by (lia || exact Hfirst).
    rewrite (loop_at_researcher llm_invoke (S (S (S m))) _ _ 1 w1 w2 update)
      by (lia || exact Hwork).
    rewrite (loop_at_supervisor llm_invoke (S (S (S m))) _ _ 2 w2 w3 END)
      by (lia || exact Hsecond).
    rewrite loop_unfold. reflexivity.
Qed.


Lemma scripted_scenario_B :
  scenario_B Scripted.llm_invoke Scripted.initial
    ["researcher"; "Meditation lowers stress."; "FINISH"] [].
Proof.
  exists ["Meditation lowers stress."; "FINISH"], ["FINISH"].
  eexists. repeat split; reflexivity.
Qed.



(** * [main] *)

Lemma conversation_length (msgs : list Message) :
  length (Program.conversation msgs) = 2 * length msgs.
Proof.
  induction msgs as [|msg msgs IH]; [done|].
  cbn [Program.conversation flat_map length app] in *.
  unfold Program.conversation in IH. rewrite IH. lia.
Qed.

